(** * CodeChecker: call-graph construction, root detection and rendering

    A shallow embedding of [CodeChecker.py]: the libclang cursor tree the
    script walks, the [defaultdict(list)] call graph, the function set, the
    merge of translation units done by the [__main__] block, leaf
    normalisation, root detection and the recursive printer. *)

From stdpp Require Import base list strings gmap sorting.

#[local] Set Warnings "-clear-no-such-hyp".

(** ** Cursors

    [clang.cindex.CursorKind] has a few hundred members; the script compares
    against four of them, every other member is [OTHER_KIND] with its clang
    number. *)

Inductive CursorKind :=
  | FUNCTION_DECL
  | CXX_METHOD
  | CALL_EXPR
  | MEMBER_REF_EXPR
  | OTHER_KIND (value : nat).

Global Instance CursorKind_eq_dec : EqDecision CursorKind.
Proof. solve_decision. Defined.

(** The attributes of a [clang.cindex.Cursor] the script reads:
    [node.kind], [node.spelling], [node.semantic_parent.spelling],
    [node.type.spelling], [node.location.file] ([None], or a file whose
    [name] is kept) and [node.get_children()]. *)

Local Unset Elimination Schemes.

Inductive Cursor := mkCursor {
  kind : CursorKind;
  spelling : string;
  semantic_parent_spelling : string;
  type_spelling : string;
  location_file : option string;
  get_children : list Cursor
}.

Local Set Elimination Schemes.

Section Cursor_ind.
Variable P : Cursor → Prop.
Hypothesis P_node : ∀ k s p t f ch, Forall P ch → P (mkCursor k s p t f ch).

Fixpoint Cursor_ind (c : Cursor) : P c :=
  match c with
  | mkCursor k s p t f ch =>
      P_node k s p t f ch
        ((fix go (l : list Cursor) : Forall P l :=
            match l with
            | [] => Forall_nil_2 P
            | x :: l' => Forall_cons_2 P x l' (Cursor_ind x) (go l')
            end) ch)
  end.
End Cursor_ind.

(** ** Python values

    A callee entry is a [str] or [None]; truthiness of the enclosing-function
    context ([None] and the empty string are falsy). *)

Definition callees := list (option string).

Definition truthy (current_func : option string) : bool :=
  match current_func with
  | None => false
  | Some f => bool_decide (f ≠ "")
  end.

(** [sub in s] on strings. *)
Fixpoint str_contains (sub s : string) : bool :=
  String.prefix sub s ||
  match s with
  | EmptyString => false
  | String _ s' => str_contains sub s'
  end.

(** ** Dictionaries

    A Python [dict] keeps insertion order, and [find_root_functions] iterates
    it: an association list with one entry per key, a new key going last. *)

Definition CallGraph := list (string * callees).

Fixpoint dict_get (d : CallGraph) (k : string) : option callees :=
  match d with
  | [] => None
  | (k', v) :: d' => if decide (k' = k) then Some v else dict_get d' k
  end.

(** [k in d]: never inserts, also on a [defaultdict]. *)
Definition dict_contains (d : CallGraph) (k : string) : bool :=
  bool_decide (is_Some (dict_get d k)).

(** [d[k] = v]: an existing key keeps its position. *)
Fixpoint dict_set (d : CallGraph) (k : string) (v : callees) : CallGraph :=
  match d with
  | [] => [(k, v)]
  | (k', v') :: d' =>
      if decide (k' = k) then (k, v) :: d' else (k', v') :: dict_set d' k v
  end.

Definition dict_keys (d : CallGraph) : list string := d.*1.
Definition dict_values (d : CallGraph) : list callees := d.*2.

(** [d[k]] on a [defaultdict(list)]: a missing key is inserted with a fresh
    empty list ([__missing__]) before the value is returned. *)
Definition dd_getitem (d : CallGraph) (k : string) : callees * CallGraph :=
  match dict_get d k with
  | Some v => (v, d)
  | None => ([], dict_set d k [])
  end.

(** [d[k].append(x)]. *)
Definition dd_append (d : CallGraph) (k : string) (x : option string) : CallGraph :=
  let '(v, d') := dd_getitem d k in dict_set d' k (v ++ [x]).

(** The edges recorded for [k], a missing key read as no edge. *)
Definition edges_of (d : CallGraph) (k : string) : callees :=
  default [] (dict_get d k).

(** ** is_system_header

    [cursor.location.file] is [None] or a file with a [name]; the [except]
    branch of the source is not reachable on such a cursor. *)

Definition is_system_header (cursor : Cursor) : bool :=
  match location_file cursor with
  | None => true
  | Some name =>
      String.prefix "/usr/include" name
      || String.prefix "/usr/lib" name
      || str_contains "/lib/gcc" name
  end.

(** ** build_call_graph *)

(** A [CursorKind] object is truthy: the right operand of the [or] on the
    first test of [build_call_graph] is the member itself, not a comparison. *)
Definition kind_truth (k : CursorKind) : bool := true.

(** Lines 111-118: the context after the node's kind has been looked at. *)
Definition enclosing_function (node : Cursor) (current_func : option string)
    : option string :=
  if bool_decide (kind node = FUNCTION_DECL) || kind_truth CXX_METHOD then
    if bool_decide (kind node = CXX_METHOD) then
      Some (semantic_parent_spelling node +:+ "::" +:+ spelling node)
    else if bool_decide (kind node = FUNCTION_DECL) then
      Some (spelling node)
    else current_func
  else current_func.

(** Lines 120-121, under the same outer test:
    [if current_func: all_functions.add(current_func)]. *)
Definition register (node : Cursor) (current_func : option string)
    (all_functions : gset string) : gset string :=
  if bool_decide (kind node = FUNCTION_DECL) || kind_truth CXX_METHOD then
    if truthy current_func
    then match current_func with
         | Some f => {[ f ]} ∪ all_functions
         | None => all_functions
         end
    else all_functions
  else all_functions.

(** Lines 130-139: the targets of one call expression. The inner loop stops
    at the first member reference ([break]); the [else] of the [for] runs
    when no child is one. *)
Fixpoint record_call (current_func : string) (child : Cursor)
    (gcs : list Cursor) (call_graph : CallGraph) : CallGraph :=
  match gcs with
  | [] => dd_append call_graph current_func (Some (spelling child))
  | gc :: gcs' =>
      if bool_decide (kind gc = MEMBER_REF_EXPR) then
        foldl (λ cg cxx,
                 dd_append cg current_func
                   (Some (type_spelling cxx +:+ "::" +:+ spelling gc)))
              call_graph (get_children gc)
      else record_call current_func child gcs' call_graph
  end.

(** Lines 127-139 for one child. *)
Definition visit_call (current_func : option string) (child : Cursor)
    (call_graph : CallGraph) : CallGraph :=
  match current_func with
  | Some f =>
      if truthy current_func && bool_decide (kind child = CALL_EXPR)
      then record_call f child (get_children child) call_graph
      else call_graph
  | None => call_graph
  end.

(** Lines 124-141: the loop over the children, [rec] being the recursive
    call of line 141. The graph and the set are the objects every call
    mutates; they are threaded through. *)
Definition for_children
    (rec : Cursor → option string → option CallGraph → option (gset string)
           → CallGraph * gset string)
    (current_func : option string)
    : list Cursor → CallGraph → gset string → CallGraph * gset string :=
  fix loop children call_graph all_functions :=
    match children with
    | [] => (call_graph, all_functions)
    | child :: rest =>
        if is_system_header child then loop rest call_graph all_functions
        else
          let call_graph := visit_call current_func child call_graph in
          let '(call_graph, all_functions) :=
            rec child current_func (Some call_graph) (Some all_functions) in
          loop rest call_graph all_functions
    end.

Fixpoint build_call_graph (node : Cursor) (current_func : option string)
    (call_graph : option CallGraph) (all_functions : option (gset string))
    {struct node} : CallGraph * gset string :=
  let call_graph := default [] call_graph in
  let all_functions := default ∅ all_functions in
  let current_func' := enclosing_function node current_func in
  let all_functions := register node current_func' all_functions in
  match node with
  | mkCursor _ _ _ _ _ children =>
      for_children build_call_graph current_func' children call_graph all_functions
  end.

(** ** find_root_functions

    [all_called] is a Python set that receives every callee of every entry,
    [None] included; the result lists the keys in the dict's order. *)

Definition find_root_functions (call_graph : CallGraph) : list string :=
  let all_called : gset (option string) :=
    foldl (λ acc (cs : callees), acc ∪ list_to_set cs) ∅ (dict_values call_graph) in
  filter (λ f, Some f ∉ all_called) (dict_keys call_graph).

(** ** print_call_graph

    What the printer can touch: the graph object it is handed and the
    standard output. *)

Record world := mkWorld {
  graph : CallGraph;
  stdout : string
}.

(** [print(s, end=e)]. *)
Definition print (s e : string) (w : world) : world :=
  mkWorld (graph w) (stdout w +:+ s +:+ e).

Definition newline : string := String (Ascii.ascii_of_nat 10) EmptyString.

(** [call_graph[k]] read through the world: the graph is a [defaultdict]. *)
Definition getitem (k : string) (w : world) : callees * world :=
  let '(v, g) := dd_getitem (graph w) k in (v, mkWorld g (stdout w)).

(** [for i in range(n): print(" ", end="")]. *)
Fixpoint print_spaces (n : nat) (w : world) : world :=
  match n with
  | 0 => w
  | S n' => print_spaces n' (print " " "" w)
  end.

(** How a call ends: it returns, or the interpreter's recursion limit is
    reached and [RecursionError] propagates to the top. *)
Inductive outcome := Returned | RecursionError.

Global Instance outcome_eq_dec : EqDecision outcome.
Proof. solve_decision. Defined.

(** Lines 158-168: the loop over the callees of [start_func], [rec] being
    the recursive call of line 168. The [for] iterates the list object read
    at its head; [len(call_graph[start_func])] is read again in every round.
    A [RecursionError] raised below ends the loop. *)
Definition for_callees
    (rec : option string → nat → world → outcome * world)
    (start_func : string) (lenght : nat)
    : callees → world → outcome * world :=
  fix loop cs w :=
    match cs with
    | [] => (Returned, w)
    | callee :: rest =>
        let '(cur, w) := getitem start_func w in
        let w :=
          if bool_decide (1 < length cur)
          then print "|" "" (print_spaces lenght (print "" newline w))
          else w in
        let w :=
          match callee with
          | None => print "-> None" "" w
          | Some c => print ("-> " +:+ c +:+ "()") "" w
          end in
        match rec callee lenght w with
        | (Returned, w) => loop rest w
        | (RecursionError, w) => (RecursionError, w)
        end
    end.

(** [depth] is the number of frames the interpreter still allows. [len] of
    a [str] is taken on the bytes of the model's strings (the same number
    for ASCII identifiers). *)
Fixpoint print_call_graph (depth : nat) (start_func : option string)
    (lenght : nat) (w : world) : outcome * world :=
  match depth with
  | 0 => (RecursionError, w)
  | S depth' =>
      match start_func with
      | None => (Returned, w)
      | Some start =>
          let lenght := lenght + String.length start + 2 in
          if dict_contains (graph w) start then
            let '(cs, w) := getitem start w in
            for_callees (print_call_graph depth') start lenght cs w
          else (Returned, w)
      end
  end.

(** ** The [__main__] block, from the list of source files on

    One entry of [source_files] with what the libclang collaborator answers
    for it: the text of [args] that [parse_with_compile_commands] prints, and
    the translation unit's cursor, or the message of the
    [TranslationUnitLoadError] that [index.parse] raises. The lookup in
    the compilation database is taken to succeed; no other exception is
    caught by the loop, and none is modelled. *)

Record unit_input := mkUnit {
  cpp_file : string;
  args_text : string;
  parse : Cursor + string
}.

(** The accumulators of the run and its output. *)
Record run := mkRun {
  global_call_graph : CallGraph;
  all_functions : gset string;
  output : string
}.

Definition echo (s e : string) (r : run) : run :=
  mkRun (global_call_graph r) (all_functions r) (output r +:+ s +:+ e).

(** Lines 199-201: [for func in funcs: global_call_graph[func] = call_graph[func]].
    The unit's graph is a [defaultdict] too: reading a function it has no
    entry for inserts one. Iterating a set yields its members in an order
    of the implementation's choosing, here that of [elements]; what a
    lookup in the merged graph finds does not depend on it
    ([merge_unit_get] below is for any list). The assignment stores the unit's list object itself; the unit's
    graph is dropped when the loop body ends and every key owns a list of
    its own, so the later [append(None)] reaches one entry of the global
    graph only, and lists are kept by value. *)
Definition merge_unit (call_graph : CallGraph) (funcs : list string)
    (global : CallGraph) : CallGraph :=
  (foldl (λ '(global, call_graph) func,
            let '(v, call_graph) := dd_getitem call_graph func in
            (dict_set global func v, call_graph))
         (global, call_graph) funcs).1.

(** Lines 195-204: the body of the loop over the source files. *)
Definition process_unit (r : run) (u : unit_input) : run :=
  let r := echo (cpp_file u) newline r in
  let r := echo ("args: " +:+ args_text u) newline r in
  match parse u with
  | inl cursor =>
      let '(call_graph, funcs) := build_call_graph cursor None None None in
      mkRun (merge_unit call_graph (elements funcs) (global_call_graph r))
            (all_functions r ∪ funcs)
            (output r)
  | inr e => echo ("Error parsing " +:+ cpp_file u +:+ ": " +:+ e) newline r
  end.

Definition process_units (source_files : list unit_input) (r : run) : run :=
  foldl process_unit r source_files.

(** [sorted] on strings: by code point, which on the model's byte strings
    is [String.leb]. *)
Definition str_le (a b : string) : Prop := String.leb a b = true.

Global Instance str_le_dec a b : Decision (str_le a b).
Proof. unfold str_le. apply _. Defined.

Definition sorted (s : gset string) : list string :=
  merge_sort str_le (elements s).

(** Lines 213-216: a function without callee gets the single entry [None]. *)
Definition normalize_entry (global : CallGraph) (func : string) : CallGraph :=
  let '(v, global) := dd_getitem global func in
  if bool_decide (length v = 0) then dd_append global func None else global.

Definition normalize (all_funcs : list string) (global : CallGraph) : CallGraph :=
  foldl normalize_entry global all_funcs.

(** Lines 224-229: the loop over the roots. *)
Fixpoint render_roots (depth : nat) (root_funcs : list string) (w : world)
    : outcome * world :=
  match root_funcs with
  | [] => (Returned, w)
  | root_func :: rest =>
      let w := print (newline +:+ root_func +:+ "()") "" w in
      match print_call_graph depth (Some root_func) 0 w with
      | (Returned, w) => render_roots depth rest w
      | (RecursionError, w) => (RecursionError, w)
      end
  end.

(** Lines 218-230. *)
Definition render (depth : nat) (w : world) : outcome * world :=
  let root_funcs := find_root_functions (graph w) in
  match root_funcs with
  | [] => (Returned, print "" newline (print "No root functions found." newline w))
  | _ =>
      match render_roots depth root_funcs (print (newline +:+ "Call graph:") "" w) with
      | (Returned, w) => (Returned, print "" newline w)
      | (RecursionError, w) => (RecursionError, w)
      end
  end.

(** Lines 191-230. [sys.exit(0)] on an empty function set ends the run
    before normalisation. *)
Definition main (depth : nat) (source_files : list unit_input) : outcome * run :=
  let r := process_units source_files (mkRun [] ∅ "") in
  let all_funcs := sorted (all_functions r) in
  match all_funcs with
  | [] => (Returned, echo "No functions found in the file." newline r)
  | _ =>
      let global := normalize all_funcs (global_call_graph r) in
      let '(o, w) := render depth (mkWorld global (output r)) in
      (o, mkRun (graph w) (all_functions r) (stdout w))
  end.

(** ** Notions the statements below are phrased with *)

(** The first member reference among the children of a call expression. *)
Definition first_member_ref (gcs : list Cursor) : option Cursor :=
  head (filter (λ gc, kind gc = MEMBER_REF_EXPR) gcs).

(** The callee names one call expression stands for: one qualified name per
    child of its first member reference, or its own spelling when it has no
    member reference. *)
Definition call_targets (child : Cursor) : callees :=
  match first_member_ref (get_children child) with
  | Some gc =>
      (λ cxx, Some (type_spelling cxx +:+ "::" +:+ spelling gc)) <$> get_children gc
  | None => [Some (spelling child)]
  end.

(** A source location the builder leaves out: no file at all, or a path
    that starts with [/usr/include] or [/usr/lib] or has [/lib/gcc] in it. *)
Definition system_location (file : option string) : Prop :=
  file = None ∨
  ∃ name, file = Some name ∧
    ((∃ rest, name = "/usr/include" +:+ rest) ∨
     (∃ rest, name = "/usr/lib" +:+ rest) ∨
     (∃ before rest, name = before +:+ "/lib/gcc" +:+ rest)).

(** An edge list with the leaf marker put in when it is empty. *)
Definition leaf_marked (cs : callees) : callees :=
  match cs with
  | [] => [None]
  | _ => cs
  end.

(** [C] is a set of functions each of which has a callee in [C]: a cycle, or
    a union of cycles, of the graph. *)
Definition recurrent (g : CallGraph) (C : string → Prop) : Prop :=
  ∀ f, C f → ∃ cs c, dict_get g f = Some cs ∧ Some c ∈ cs ∧ C c.

(** [rank] decreases along every edge to a function that has an entry: the
    graph has no cycle. *)
Definition ranked (g : CallGraph) (rank : string → nat) : Prop :=
  ∀ f cs c, dict_get g f = Some cs → Some c ∈ cs → is_Some (dict_get g c) →
            rank c < rank f.

(** Printing [f] over [g] ends in [RecursionError] whatever depth the
    interpreter allows. *)
Definition never_returns (g : CallGraph) (f : string) : Prop :=
  ∀ depth lenght out,
    (print_call_graph depth (Some f) lenght (mkWorld g out)).1 = RecursionError.

(** One round of the loop up to the recursive call: what is printed before
    descending into [callee]. *)
Definition announce (lenght : nat) (cur : callees) (callee : option string)
    (w : world) : world :=
  let w :=
    if bool_decide (1 < length cur)
    then print "|" "" (print_spaces lenght (print "" newline w))
    else w in
  match callee with
  | None => print "-> None" "" w
  | Some c => print ("-> " +:+ c +:+ "()") "" w
  end.

(** Every function of the set has an entry in the global graph, and the
    graph has no other key: what the loop over the source files keeps. *)
Definition keys_are_functions (r : run) : Prop :=
  NoDup (dict_keys (global_call_graph r))
  ∧ ∀ k, k ∈ dict_keys (global_call_graph r) ↔ k ∈ all_functions r.

(** [s.split("\n")]. *)
Fixpoint lines (s : string) : list string :=
  match s with
  | EmptyString => [""]
  | String c s' =>
      if Ascii.eqb c (Ascii.ascii_of_nat 10) then "" :: lines s'
      else match lines s' with
           | [] => [String c ""]
           | l :: ls => String c l :: ls
           end
  end.

(** ** Fixtures *)

Module Fixtures.

Definition main_cpp : option string := Some "test/src/main.cpp".

(** A cursor of a kind the script does not compare against. *)
Definition other (value : nat) (name : string) (children : list Cursor) : Cursor :=
  mkCursor (OTHER_KIND value) name "" "" main_cpp children.

(** [A] calls [B] and [B] calls [A]. *)
Definition mutual_recursion : CallGraph :=
  [("A", [Some "B"]); ("B", [Some "A"])].

(** [main] calls [helper], which calls [Widget::run], a leaf. *)
Definition chain : CallGraph :=
  [("main", [Some "helper"]); ("helper", [Some "Widget::run"]);
   ("Widget::run", [None])].

Definition chain_rank (f : string) : nat :=
  if decide (f = "main") then 2 else if decide (f = "helper") then 1 else 0.

(** [main] calls [helper], [helper] calls [Widget::run] on a local
    [Widget w], [Widget::run] calls nothing. *)
Definition scenario_tu : Cursor :=
  mkCursor (OTHER_KIND 350) "test/src/main.cpp" "" "" None
    [ other 4 "Widget"
        [ mkCursor CXX_METHOD "run" "Widget" "void ()" main_cpp [ other 202 "" [] ] ];
      mkCursor FUNCTION_DECL "helper" "" "void ()" main_cpp
        [ other 202 ""
            [ other 231 "" [ other 9 "w" [ other 43 "class Widget" [] ] ];
              mkCursor CALL_EXPR "run" "" "void" main_cpp
                [ mkCursor MEMBER_REF_EXPR "run" "" "<bound member function type>" main_cpp
                    [ mkCursor (OTHER_KIND 101) "w" "" "Widget" main_cpp [] ] ] ] ];
      mkCursor FUNCTION_DECL "main" "" "int ()" main_cpp
        [ other 202 ""
            [ mkCursor CALL_EXPR "helper" "" "void" main_cpp
                [ other 100 "helper" [ other 101 "helper" [] ] ] ] ] ].

Definition scenario : list unit_input :=
  [ mkUnit "test/src/main.cpp" "['-I./test/inc']" (inl scenario_tu) ].

(** [Widget::run] calls [step()] on the implicit [this]: the member
    reference of the call has no child. *)
Definition implicit_this_tu : Cursor :=
  mkCursor (OTHER_KIND 350) "test/src/widget.cpp" "" "" None
    [ other 4 "Widget"
        [ mkCursor CXX_METHOD "step" "Widget" "void ()" main_cpp [];
          mkCursor CXX_METHOD "run" "Widget" "void ()" main_cpp
            [ other 202 ""
                [ mkCursor CALL_EXPR "step" "" "void" main_cpp
                    [ mkCursor MEMBER_REF_EXPR "step" "" "<bound member function type>"
                        main_cpp [] ] ] ] ] ].

(** A translation unit that includes a system header declaring [printf]
    with a call in its inline body, before its own [main]. *)
Definition stdio_decl : Cursor :=
  mkCursor FUNCTION_DECL "printf" "" "int (const char *, ...)"
    (Some "/usr/include/stdio.h")
    [ mkCursor CALL_EXPR "vfprintf" "" "int" (Some "/usr/include/stdio.h") [] ].

Definition with_stdio (children : list Cursor) : Cursor :=
  mkCursor (OTHER_KIND 350) "test/src/main.cpp" "" "" None children.

Definition own_main : Cursor :=
  mkCursor FUNCTION_DECL "main" "" "int ()" main_cpp
    [ other 202 "" [ mkCursor CALL_EXPR "printf" "" "int" main_cpp [] ] ].

(** The call [helper()] as it stands in the body of [main]. *)
Definition helper_call : Cursor :=
  mkCursor CALL_EXPR "helper" "" "void" main_cpp
    [ other 100 "helper" [ other 101 "helper" [] ] ].

(** A function declaration whose spelling is the empty string. *)
Definition unnamed_function : Cursor :=
  mkCursor FUNCTION_DECL "" "" "void ()" main_cpp [].

(** A unit whose parse fails, between two that parse. *)
Definition broken_unit : unit_input :=
  mkUnit "test/src/broken.cpp" "[]" (inr "Error parsing translation unit.").

(** Two units that both define [f]: the first has it call [x], the
    second [y]. *)
Definition unit_f (file callee : string) : unit_input :=
  mkUnit file "[]"
    (inl (mkCursor (OTHER_KIND 350) file "" "" None
            [ mkCursor FUNCTION_DECL "f" "" "void ()" main_cpp
                [ other 202 ""
                    [ mkCursor CALL_EXPR callee "" "void" main_cpp [] ] ] ])).

End Fixtures.

(** ** find_source_files

    [os.walk(root_dir)] is the collaborator's answer: the directories in the
    order it yields them, each with its sub-directory names and its file
    names. *)

(** [s.endswith(suffix)]. *)
Fixpoint endswith (s suffix : string) : bool :=
  if String.eqb s suffix then true
  else match s with
       | EmptyString => false
       | String _ s' => endswith s' suffix
       end.

(** [s.endswith(suffixes)] for a tuple of suffixes. *)
Definition endswith_any (s : string) (suffixes : list string) : bool :=
  existsb (endswith s) suffixes.

(** [os.path.join(a, b)] of [posixpath]: an absolute [b] replaces [a], and
    a separator is put in unless [a] is empty or ends with one. *)
Definition path_join (a b : string) : string :=
  if String.prefix "/" b then b
  else if String.eqb a "" || endswith a "/" then a +:+ b
  else a +:+ "/" +:+ b.

Definition source_extensions : list string := [".c"; ".cpp"; ".cc"; ".cxx"].

Definition find_source_files (walk : list (string * list string * list string))
    (extensions : list string) : list string :=
  foldl (λ sources '(dirpath, _, filenames),
           foldl (λ sources file,
                    if endswith_any file extensions
                    then sources ++ [path_join dirpath file]
                    else sources)
                 sources filenames)
        [] walk.

(** ** generate_compile_command and extract_compile_commands_from_make

    One record of [compile_commands.json]. *)

Record compile_command := mkCommand {
  directory : string;
  command : string;
  file : string
}.

(** [sep.join(words)]. *)
Fixpoint str_join (sep : string) (words : list string) : string :=
  match words with
  | [] => ""
  | [word] => word
  | word :: rest => word +:+ sep +:+ str_join sep rest
  end.

(** [x or default] for an optional string argument: [None] and the empty
    string are falsy. *)
Definition or_else (x : option string) (default : string) : string :=
  match x with
  | Some s => if String.eqb s "" then default else s
  | None => default
  end.

(** [line.startswith(prefixes)] for a tuple of prefixes. *)
Definition startswith_any (line : string) (prefixes : list string) : bool :=
  existsb (λ p, String.prefix p line) prefixes.

Definition compiler_names : list string := ["gcc"; "g++"; "clang"; "clang++"].

(** How [extract_compile_commands_from_make] ends: the list is dumped to
    [output_path] and the summary line printed; or [make] failed, the error
    is printed and nothing is written; or [shlex.split] raised [ValueError]
    on a line, which nothing catches, and nothing is written. *)
Inductive extract_outcome :=
  | Written (compile_commands : list compile_command) (printed : string)
  | MakeFailed (printed : string)
  | SplitRaised (line : string).

Section compile_commands.

(** The collaborators: [os.path.abspath] and [os.path.dirname],
    [os.getcwd()], and [shlex.split], [None] standing for the [ValueError]
    it raises on a line it cannot split. *)
Variable abspath : string → string.
Variable dirname : string → string.
Variable getcwd : string.
Variable shlex_split : string → option (list string).

(** Lines 51-62. *)
Definition generate_compile_command (project_root source_file : string)
    (include_dirs : list string) (compiler : string) (extra_flags : list string)
    : compile_command :=
  let command := [compiler] in
  let command := command ++ extra_flags in
  let command := foldl (λ command inc, command ++ ["-I" +:+ inc]) command include_dirs in
  let command := command ++ [project_root] in
  let command := command ++ [source_file] in
  mkCommand (dirname (abspath source_file)) (str_join " " command) source_file.

(** Lines 75-85: the loop over the lines of the dry run. *)
Fixpoint scan_make_output (project_root : string) (cwd : option string)
    (lines : list string) (compile_commands : list compile_command)
    : list compile_command + string :=
  match lines with
  | [] => inl compile_commands
  | line :: rest =>
      if startswith_any line compiler_names then
        match shlex_split line with
        | None => inr line
        | Some args =>
            let src_files :=
              filter (λ arg, endswith_any arg source_extensions = true) args in
            match src_files with
            | [] => scan_make_output project_root cwd rest compile_commands
            | src :: _ =>
                scan_make_output project_root cwd rest
                  (compile_commands ++
                   [mkCommand
                      (path_join (or_else cwd getcwd) project_root)
                      line
                      (abspath (path_join (path_join (or_else cwd ".") project_root) src))])
            end
        end
      else scan_make_output project_root cwd rest compile_commands
  end.

(** Lines 64-96. [make] is what [subprocess.run] of the dry run gives: the
    lines of its standard output, or the standard error of a
    [CalledProcessError]; [walk] is what [os.walk(project_root)] yields. *)
Definition extract_compile_commands_from_make
    (make : list string + string) (walk : list (string * list string * list string))
    (project_root output_path : string) (include_dirs : list string)
    (compiler : string) (extra_flags : list string)
    (use_make : bool) (cwd : option string) : extract_outcome :=
  let finish compile_commands :=
    Written compile_commands
      ("Generated " +:+ output_path +:+ " with "
       +:+ pretty.pretty (length compile_commands) +:+ " entries." +:+ newline) in
  if use_make then
    match make with
    | inr stderr => MakeFailed ("Error running make:" +:+ newline +:+ stderr +:+ newline)
    | inl lines =>
        match scan_make_output project_root cwd lines [] with
        | inl compile_commands => finish compile_commands
        | inr line => SplitRaised line
        end
    end
  else
    let source_files := find_source_files walk source_extensions in
    finish ((λ src, generate_compile_command project_root src include_dirs
                      compiler extra_flags) <$> source_files).

End compile_commands.

(** ** Notions the further statements are phrased with *)

(** What the loop of [build_call_graph] does over the children that are
    not in a system header, for a function of one child. *)
Definition over_user_children {A} (f : Cursor → list A) : list Cursor → list A :=
  fix go children :=
    match children with
    | [] => []
    | child :: rest =>
        if is_system_header child then go rest else f child ++ go rest
    end.

(** The name a declaration node stands for. *)
Definition own_name (node : Cursor) : list string :=
  if bool_decide (kind node = CXX_METHOD) then
    [semantic_parent_spelling node +:+ "::" +:+ spelling node]
  else if bool_decide (kind node = FUNCTION_DECL) then [spelling node]
  else [].

(** The names of the function and method declarations of a tree, the ones
    below a child in a system header left out, in the order of the walk. *)
Fixpoint declared_names (node : Cursor) : list string :=
  own_name node ++
  match node with
  | mkCursor _ _ _ _ _ children => over_user_children declared_names children
  end.

(** The names among them that are not the empty string. *)
Definition named (names : list string) : list string :=
  filter (λ f, f ≠ "") names.

(** The edges of one call expression seen under a context. *)
Definition edges_of_call (current_func : option string) (child : Cursor)
    : list (string * option string) :=
  match current_func with
  | Some f =>
      if truthy current_func && bool_decide (kind child = CALL_EXPR)
      then (λ callee, (f, callee)) <$> call_targets child
      else []
  | None => []
  end.

(** The edges of a tree, caller and callee, in the order of the walk. *)
Fixpoint call_edges (node : Cursor) (current_func : option string)
    : list (string * option string) :=
  match node with
  | mkCursor _ _ _ _ _ children =>
      over_user_children
        (λ child,
           edges_of_call (enclosing_function node current_func) child
           ++ call_edges child (enclosing_function node current_func))
        children
  end.

(** The dispatch as the specification words it: an exclusive branch on the
    node's kind. A method declaration sets the context to
    [EnclosingType::MethodName], a function declaration to the bare name,
    any other node leaves it as it is. *)
Definition spec_dispatch (node : Cursor) (current_func : option string)
    : option string :=
  match kind node with
  | CXX_METHOD => Some (semantic_parent_spelling node +:+ "::" +:+ spelling node)
  | FUNCTION_DECL => Some (spelling node)
  | _ => current_func
  end.

(** The registration as the specification words it: the context string
    of a declaration node goes into the function set; no other node
    registers anything. *)
Definition spec_register (node : Cursor) (current_func : option string)
    (all_functions : gset string) : gset string :=
  match kind node, current_func with
  | CXX_METHOD, Some f | FUNCTION_DECL, Some f => {[ f ]} ∪ all_functions
  | _, _ => all_functions
  end.

(** The walk of [build_call_graph] with that dispatch and that registration
    in place of lines 111-121; the loop over the children is the one of the
    source. *)
Fixpoint build_call_graph_exclusive (node : Cursor) (current_func : option string)
    (call_graph : option CallGraph) (all_functions : option (gset string))
    {struct node} : CallGraph * gset string :=
  let call_graph := default [] call_graph in
  let all_functions := default ∅ all_functions in
  let current_func' := spec_dispatch node current_func in
  let all_functions := spec_register node current_func' all_functions in
  match node with
  | mkCursor _ _ _ _ _ children =>
      for_children build_call_graph_exclusive current_func' children
        call_graph all_functions
  end.

(** The callees of [k] in a list of edges. *)
Definition callees_in (k : string) (edges : list (string * option string)) : callees :=
  (filter (λ e, e.1 = k) edges).*2.

(** An entry as the builder leaves them: a non-empty caller with at least
    one callee, every callee a name. *)
Definition builder_entry (e : string * callees) : Prop :=
  e.1 ≠ "" ∧ e.2 ≠ [] ∧ Forall is_Some e.2.

(** [f] is in [C] or has a chain of calls into it. *)
Inductive reaches (g : CallGraph) (C : string → Prop) : string → Prop :=
  | reaches_here f : C f → reaches g C f
  | reaches_step f cs c :
      dict_get g f = Some cs → Some c ∈ cs → reaches g C c → reaches g C f.

(** The same world with [out] printed before everything else. *)
Definition prepend (out : string) (w : world) : world :=
  mkWorld (graph w) (out +:+ stdout w).

(** Every key of the graph is a callee of some entry. *)
Definition all_called (g : CallGraph) : Prop :=
  ∀ f, f ∈ dict_keys g → ∃ caller cs, dict_get g caller = Some cs ∧ Some f ∈ cs.

(** A unit that adds no function: its parse fails, or its tree has no
    declaration with a name outside the system headers. *)
Definition adds_no_function (u : unit_input) : Prop :=
  match parse u with
  | inl cursor => named (declared_names cursor) = []
  | inr _ => True
  end.

(** A line of the dry run that names a source file: it starts with the
    name of a compiler and one of the words [shlex.split] finds in it ends
    with a source extension. *)
Definition names_source (shlex_split : string → option (list string))
    (line : string) : bool :=
  startswith_any line compiler_names &&
  match shlex_split line with
  | Some args =>
      bool_decide (filter (λ arg, endswith_any arg source_extensions = true) args ≠ [])
  | None => false
  end.

(** What the loop over the dry run puts in an entry for a line. *)
Definition entry_of_line (abspath : string → string) (getcwd : string)
    (shlex_split : string → option (list string))
    (project_root : string) (cwd : option string) (e : compile_command) : Prop :=
  directory e = path_join (or_else cwd getcwd) project_root
  ∧ ∃ args src others,
      shlex_split (command e) = Some args
      ∧ filter (λ arg, endswith_any arg source_extensions = true) args = src :: others
      ∧ file e = abspath (path_join (path_join (or_else cwd ".") project_root) src).

(** The functions one entry of [source_files] adds to the set. *)
Definition unit_functions (u : unit_input) : gset string :=
  match parse u with
  | inl cursor => (build_call_graph cursor None None None).2
  | inr _ => ∅
  end.

(** Further fixtures. *)
Module MoreFixtures.

(** [main] calls [A]; [A] and [B] call each other. *)
Definition entry_into_cycle : CallGraph :=
  [("main", [Some "A"]); ("A", [Some "B"]); ("B", [Some "A"])].

(** A translation unit with a global initialised by a call and no function. *)
Definition globals_only : Cursor :=
  mkCursor (OTHER_KIND 350) "test/src/globals.cpp" "" "" None
    [ Fixtures.other 9 "counter"
        [ mkCursor CALL_EXPR "initial_value" "" "int" Fixtures.main_cpp [] ] ].

(** A splitter for lines without quotes: the words between blanks. *)
Definition split_on_blanks (line : string) : option (list string) :=
  Some (String.words line).

(** The lines of a dry run. *)
Definition dry_run : list string :=
  [ "make: Entering directory"; "gcc -Wall -c src/main.c -o main.o";
    "echo linking"; "g++ main.o -o app"; "clang++ -c widget.cpp" ].

(** What [os.walk] yields on a small project. *)
Definition small_walk : list (string * list string * list string) :=
  [ ("proj", ["src"; "inc"], ["Makefile"; "main.cpp"]);
    ("proj/src", [], ["widget.cc"; "widget.o"; "notes.c.txt"]);
    ("proj/inc", [], ["widget.h"]) ].

End MoreFixtures.

(** * Properties *)

(** ** Dictionaries *)

Section dict_lemmas.
Implicit Types (d : CallGraph) (k : string) (v : callees).

Lemma dict_get_set_eq d k v : dict_get (dict_set d k v) k = Some v.
Proof.
  induction d as [|[k' v'] d IH]; simpl.
  - by rewrite decide_True.
  - destruct (decide (k' = k)) as [->|Hne]; simpl.
    + by rewrite decide_True.
    + by rewrite decide_False.
Qed.

Lemma dict_get_set_ne d k k' v :
  k ≠ k' → dict_get (dict_set d k v) k' = dict_get d k'.
Proof.
  intros Hne. induction d as [|[k0 v0] d IH]; simpl.
  - by rewrite decide_False.
  - destruct (decide (k0 = k)) as [->|Hne0]; simpl.
    + by rewrite !decide_False.
    + by rewrite IH.
Qed.

Lemma dict_get_is_Some d k : is_Some (dict_get d k) ↔ k ∈ dict_keys d.
Proof.
  unfold dict_keys. induction d as [|[k' v'] d IH]; simpl.
  - split; [intros [? ?]; done | by intros ?%elem_of_nil].
  - rewrite elem_of_cons. destruct (decide (k' = k)) as [->|Hne].
    + split; [by left | by eexists].
    + rewrite IH. split; [by right | by intros [?|?]].
Qed.

Lemma dict_get_None d k : dict_get d k = None ↔ k ∉ dict_keys d.
Proof. rewrite <- dict_get_is_Some, eq_None_not_Some. done. Qed.

Lemma dict_contains_true d k : dict_contains d k = true ↔ is_Some (dict_get d k).
Proof. unfold dict_contains. by rewrite bool_decide_eq_true. Qed.

Lemma dict_get_elem_of d k v : dict_get d k = Some v → (k, v) ∈ d.
Proof.
  induction d as [|[k' v'] d IH]; simpl; [done|].
  destruct (decide (k' = k)) as [->|Hne].
  - intros [= ->]. by left.
  - intros ?. right. by apply IH.
Qed.

Lemma dict_elem_of_get d k v :
  NoDup (dict_keys d) → (k, v) ∈ d → dict_get d k = Some v.
Proof.
  unfold dict_keys. induction d as [|[k' v'] d IH]; simpl.
  - by intros _ ?%elem_of_nil.
  - rewrite NoDup_cons, elem_of_cons. intros [Hk Hnd] [[= <- <-]|Hin].
    + by rewrite decide_True.
    + rewrite decide_False; [by apply IH|].
      intros ->. apply Hk. apply list_elem_of_fmap. by exists (k, v).
Qed.

Lemma dict_keys_set_present d k v :
  is_Some (dict_get d k) → dict_keys (dict_set d k v) = dict_keys d.
Proof.
  unfold dict_keys. induction d as [|[k' v'] d IH]; simpl.
  - by intros [? ?].
  - destruct (decide (k' = k)) as [->|Hne]; csimpl; [done|].
    intros ?. f_equal. by apply IH.
Qed.

Lemma dict_keys_set_absent d k v :
  dict_get d k = None → dict_keys (dict_set d k v) = dict_keys d ++ [k].
Proof.
  unfold dict_keys. induction d as [|[k' v'] d IH]; simpl; [done|].
  destruct (decide (k' = k)) as [->|Hne]; csimpl; [done|].
  intros ?. f_equal. by apply IH.
Qed.

Lemma elem_of_dict_keys_set d k k' v :
  k' ∈ dict_keys (dict_set d k v) ↔ k' = k ∨ k' ∈ dict_keys d.
Proof.
  destruct (dict_get d k) as [v0|] eqn:Hget.
  - rewrite dict_keys_set_present by eauto.
    assert (k ∈ dict_keys d) by (apply dict_get_is_Some; eauto).
    naive_solver.
  - rewrite dict_keys_set_absent, elem_of_app, list_elem_of_singleton by done.
    naive_solver.
Qed.

Lemma NoDup_dict_keys_set d k v :
  NoDup (dict_keys d) → NoDup (dict_keys (dict_set d k v)).
Proof.
  intros Hnd. destruct (dict_get d k) as [v0|] eqn:Hget.
  - by rewrite dict_keys_set_present by eauto.
  - rewrite dict_keys_set_absent by done.
    apply NoDup_app. split_and!; [done| |apply NoDup_singleton].
    intros x Hx ->%list_elem_of_singleton. by apply dict_get_None in Hget.
Qed.

(** A [defaultdict] read leaves every edge list as it was. *)
Lemma dd_getitem_value d k : (dd_getitem d k).1 = edges_of d k.
Proof. unfold dd_getitem, edges_of. by destruct (dict_get d k). Qed.

Lemma dd_getitem_present d k v :
  dict_get d k = Some v → dd_getitem d k = (v, d).
Proof. unfold dd_getitem. by intros ->. Qed.

Lemma dd_getitem_get d k k' :
  dict_get (dd_getitem d k).2 k' =
    if decide (k = k') then Some (edges_of d k) else dict_get d k'.
Proof.
  unfold dd_getitem, edges_of. destruct (dict_get d k) as [v|] eqn:Hget; simpl.
  - destruct (decide (k = k')) as [<-|]; done.
  - destruct (decide (k = k')) as [<-|Hne].
    + by rewrite dict_get_set_eq.
    + by rewrite dict_get_set_ne.
Qed.

Lemma dd_getitem_edges d k k' : edges_of (dd_getitem d k).2 k' = edges_of d k'.
Proof.
  unfold edges_of at 1. rewrite dd_getitem_get.
  destruct (decide (k = k')) as [<-|]; done.
Qed.

Lemma elem_of_dd_getitem_keys d k k' :
  k' ∈ dict_keys (dd_getitem d k).2 ↔ k' = k ∨ k' ∈ dict_keys d.
Proof.
  unfold dd_getitem. destruct (dict_get d k) as [v|] eqn:Hget; simpl.
  - assert (k ∈ dict_keys d) by (apply dict_get_is_Some; eauto). naive_solver.
  - apply elem_of_dict_keys_set.
Qed.

Lemma NoDup_dd_getitem_keys d k :
  NoDup (dict_keys d) → NoDup (dict_keys (dd_getitem d k).2).
Proof.
  unfold dd_getitem. destruct (dict_get d k); simpl; [done|].
  apply NoDup_dict_keys_set.
Qed.

Lemma dd_append_get d k x k' :
  dict_get (dd_append d k x) k' =
    if decide (k = k') then Some (edges_of d k ++ [x]) else dict_get d k'.
Proof.
  unfold dd_append. destruct (dd_getitem d k) as [v d'] eqn:Hgi.
  assert (v = edges_of d k) as -> by (by rewrite <- dd_getitem_value, Hgi).
  assert (d' = (dd_getitem d k).2) as -> by (by rewrite Hgi).
  destruct (decide (k = k')) as [<-|Hne].
  - by rewrite dict_get_set_eq.
  - rewrite dict_get_set_ne, dd_getitem_get, decide_False by done. done.
Qed.

Lemma dd_append_edges_eq d k x : edges_of (dd_append d k x) k = edges_of d k ++ [x].
Proof. unfold edges_of at 1. by rewrite dd_append_get, decide_True. Qed.

Lemma dd_append_edges_ne d k x k' :
  k ≠ k' → edges_of (dd_append d k x) k' = edges_of d k'.
Proof. intros. unfold edges_of at 1. by rewrite dd_append_get, decide_False. Qed.

Lemma elem_of_dd_append_keys d k x k' :
  k' ∈ dict_keys (dd_append d k x) ↔ k' = k ∨ k' ∈ dict_keys d.
Proof.
  unfold dd_append. destruct (dd_getitem d k) as [v d'] eqn:Hgi.
  assert (d' = (dd_getitem d k).2) as -> by (by rewrite Hgi).
  rewrite elem_of_dict_keys_set, elem_of_dd_getitem_keys. naive_solver.
Qed.

Lemma NoDup_dd_append_keys d k x :
  NoDup (dict_keys d) → NoDup (dict_keys (dd_append d k x)).
Proof.
  intros Hnd. unfold dd_append. destruct (dd_getitem d k) as [v d'] eqn:Hgi.
  assert (d' = (dd_getitem d k).2) as -> by (by rewrite Hgi).
  by apply NoDup_dict_keys_set, NoDup_dd_getitem_keys.
Qed.

End dict_lemmas.

(** ** The printer *)

Section printer_lemmas.
Implicit Types (w : world) (g : CallGraph) (cs : callees).

Lemma print_graph s e w : graph (print s e w) = graph w.
Proof. done. Qed.

Lemma print_spaces_graph n w : graph (print_spaces n w) = graph w.
Proof. revert w. induction n as [|n IH]; intros w; simpl; [done|]. by rewrite IH. Qed.

Lemma getitem_present k w v :
  dict_get (graph w) k = Some v → getitem k w = (v, w).
Proof.
  intros Hget. unfold getitem. rewrite (dd_getitem_present _ _ _ Hget).
  by destruct w.
Qed.

Lemma announce_graph lenght cur callee w :
  graph (announce lenght cur callee w) = graph w.
Proof.
  unfold announce. destruct callee, (bool_decide _); simpl;
    by rewrite ?print_spaces_graph.
Qed.

Lemma for_callees_cons rec start lenght callee rest w cur :
  dict_get (graph w) start = Some cur →
  for_callees rec start lenght (callee :: rest) w =
    match rec callee lenght (announce lenght cur callee w) with
    | (Returned, w') => for_callees rec start lenght rest w'
    | (RecursionError, w') => (RecursionError, w')
    end.
Proof. intros Hget. simpl. by rewrite (getitem_present _ _ _ Hget). Qed.

Lemma for_callees_graph rec start lenght cs w :
  (∀ c l w', graph (rec c l w').2 = graph w') →
  is_Some (dict_get (graph w) start) →
  graph (for_callees rec start lenght cs w).2 = graph w.
Proof.
  intros Hrec. revert w. induction cs as [|callee rest IH]; intros w [cur Hcur].
  - done.
  - rewrite (for_callees_cons _ _ _ _ _ _ _ Hcur).
    pose proof (Hrec callee lenght (announce lenght cur callee w)) as Hg.
    rewrite announce_graph in Hg.
    destruct (rec callee lenght _) as [[] w']; simpl in *; [|done].
    rewrite IH; [done|]. rewrite Hg. eauto.
Qed.

Lemma print_call_graph_unfold depth start lenght w cur :
  dict_get (graph w) start = Some cur →
  print_call_graph (S depth) (Some start) lenght w =
    for_callees (print_call_graph depth) start
      (lenght + String.length start + 2) cur w.
Proof.
  intros Hget. simpl.
  assert (dict_contains (graph w) start = true) as ->
    by (apply dict_contains_true; eauto).
  by rewrite (getitem_present _ _ _ Hget).
Qed.

Lemma print_call_graph_absent depth start lenght w :
  dict_get (graph w) start = None →
  print_call_graph (S depth) (Some start) lenght w = (Returned, w).
Proof.
  intros Hget. simpl.
  assert (dict_contains (graph w) start = false) as ->; [|done].
  apply not_true_is_false. rewrite dict_contains_true, Hget. by intros [? ?].
Qed.

Lemma print_call_graph_graph depth start_func lenght w :
  graph (print_call_graph depth start_func lenght w).2 = graph w.
Proof.
  revert start_func lenght w.
  induction depth as [|depth IH]; intros [start|] lenght w; try done.
  destruct (dict_get (graph w) start) as [cur|] eqn:Hget.
  - rewrite (print_call_graph_unfold _ _ _ _ _ Hget).
    apply for_callees_graph; eauto.
  - by rewrite print_call_graph_absent.
Qed.

(** A callee that cannot be printed within the depth left ends the loop
    with [RecursionError], wherever it stands in the list. *)
Lemma for_callees_error rec start lenght cs w c :
  (∀ c' l w', graph (rec c' l w').2 = graph w') →
  (∀ l w', graph w' = graph w → (rec (Some c) l w').1 = RecursionError) →
  is_Some (dict_get (graph w) start) →
  Some c ∈ cs →
  (for_callees rec start lenght cs w).1 = RecursionError.
Proof.
  intros Hrec. revert w.
  induction cs as [|callee rest IH]; intros w Herr [cur Hcur] Hin.
  - by apply elem_of_nil in Hin.
  - rewrite (for_callees_cons _ _ _ _ _ _ _ Hcur).
    pose proof (Hrec callee lenght (announce lenght cur callee w)) as Hg.
    rewrite announce_graph in Hg.
    apply elem_of_cons in Hin as [<-|Hin].
    + specialize (Herr lenght (announce lenght cur (Some c) w) (announce_graph _ _ _ _)).
      destruct (rec (Some c) lenght _) as [[] w']; simpl in *; done.
    + destruct (rec callee lenght _) as [[] w']; simpl in *; [|done].
      apply IH; [|rewrite Hg; eauto|done].
      intros l w'' Hw''. apply Herr. by rewrite Hw''.
Qed.

(** A loop all of whose callees can be printed returns. *)
Lemma for_callees_returns rec start lenght cs w :
  (∀ c' l w', graph (rec c' l w').2 = graph w') →
  (∀ c l w', c ∈ cs → graph w' = graph w → (rec c l w').1 = Returned) →
  is_Some (dict_get (graph w) start) →
  (for_callees rec start lenght cs w).1 = Returned.
Proof.
  intros Hrec. revert w.
  induction cs as [|callee rest IH]; intros w Hret [cur Hcur]; [done|].
  rewrite (for_callees_cons _ _ _ _ _ _ _ Hcur).
  pose proof (Hrec callee lenght (announce lenght cur callee w)) as Hg.
  rewrite announce_graph in Hg.
  pose proof (Hret callee lenght (announce lenght cur callee w)
                (list_elem_of_here _ _) (announce_graph _ _ _ _)) as Hr.
  destruct (rec callee lenght _) as [[] w']; simpl in *; [|done].
  apply IH; [|rewrite Hg; eauto].
  intros c l w'' Hc Hw''. apply Hret; [by right|by rewrite Hw''].
Qed.

Lemma recurrent_never_returns g C f : recurrent g C → C f → never_returns g f.
Proof.
  intros Hrec HC depth. revert f HC.
  assert (∀ f, C f → ∀ lenght w, graph w = g →
            (print_call_graph depth (Some f) lenght w).1 = RecursionError) as H.
  { induction depth as [|depth IH]; intros f HC lenght w Hw; [done|].
    destruct (Hrec f HC) as (cs & c & Hcs & Hc & HCc).
    rewrite <- Hw in Hcs. rewrite (print_call_graph_unfold _ _ _ _ _ Hcs).
    apply for_callees_error with c; [apply print_call_graph_graph| |eauto|done].
    intros l w' Hw'. apply IH; [done|]. by rewrite Hw'. }
  intros f HC lenght out. by apply H.
Qed.

Lemma ranked_returns g rank depth f lenght w :
  ranked g rank → graph w = g → rank f + 2 ≤ depth →
  (print_call_graph depth (Some f) lenght w).1 = Returned.
Proof.
  intros Hrank. revert f lenght w.
  induction depth as [|depth IH]; intros f lenght w Hw Hd; [lia|].
  destruct (dict_get (graph w) f) as [cs|] eqn:Hcs.
  - rewrite (print_call_graph_unfold _ _ _ _ _ Hcs).
    apply for_callees_returns; [apply print_call_graph_graph| |eauto].
    intros [c|] l w' Hc Hw'.
    + destruct (dict_get (graph w') c) as [cs'|] eqn:Hc'.
      * apply IH; [by rewrite Hw', Hw|].
        assert (rank c < rank f); [|lia].
        rewrite Hw in Hcs. apply (Hrank f cs c Hcs Hc).
        rewrite <- Hw, <- Hw'. eauto.
      * destruct depth as [|depth]; [lia|]. by rewrite print_call_graph_absent.
    + destruct depth as [|depth]; [lia|done].
  - by rewrite print_call_graph_absent.
Qed.

End printer_lemmas.

(** C9: printing leaves the call graph as it was. Whatever the depth the
    interpreter allows, the start function, the indentation and the text
    already printed, the graph object after [print_call_graph] (returned or
    interrupted by [RecursionError]) is the graph it was handed: no key is
    inserted by the reads of the [defaultdict] and no edge list changes. *)
Theorem print_call_graph_frame depth call_graph start_func lenght out :
  graph (print_call_graph depth start_func lenght (mkWorld call_graph out)).2
  = call_graph.
Proof. apply (print_call_graph_graph depth start_func lenght (mkWorld call_graph out)). Qed.

(** C1, as stated, fails on the mutual-recursion fixture: printing [A]
    never returns, whatever depth is allowed, and after four frames the
    output is [-> B()-> A()-> B()-> A()], with no recursion marker and a
    third and fourth descent. *)
Lemma mutual_recursion_not_guarded :
  never_returns Fixtures.mutual_recursion "A" ∧
  print_call_graph 4 (Some "A") 0 (mkWorld Fixtures.mutual_recursion "")
  = (RecursionError, mkWorld Fixtures.mutual_recursion "-> B()-> A()-> B()-> A()").
Proof.
  split; [|reflexivity].
  apply (recurrent_never_returns _ (λ f, f = "A" ∨ f = "B")); [|by left].
  intros f [-> | ->].
  - exists [Some "B"], "B". split_and!; [done|apply list_elem_of_here|by right].
  - exists [Some "A"], "A". split_and!; [done|apply list_elem_of_here|by left].
Qed.

(** C1, amended: the printer keeps no record of the recursion path.
    Printing a function returns when the graph has no cycle (a rank
    decreases along every edge to a function that has an entry), within a
    depth of the rank plus two; printing a function that lies on a cycle
    (a set of functions each with a callee in the set) never returns: it
    ends in [RecursionError] whatever depth is allowed. *)
Theorem print_call_graph_termination (g : CallGraph) :
  (∀ rank f depth lenght out,
     ranked g rank → rank f + 2 ≤ depth →
     (print_call_graph depth (Some f) lenght (mkWorld g out)).1 = Returned)
  ∧ (∀ (C : string → Prop) f, recurrent g C → C f → never_returns g f).
Proof.
  split.
  - intros rank f depth lenght out Hrank Hd. by apply (ranked_returns g rank).
  - intros C f. apply recurrent_never_returns.
Qed.

(** The chain of the scenario is printed within four frames; [B] of the
    mutual recursion never is. *)
Lemma print_call_graph_termination_witness :
  (print_call_graph 4 (Some "main") 0 (mkWorld Fixtures.chain "")).1 = Returned
  ∧ never_returns Fixtures.mutual_recursion "B".
Proof.
  split.
  - apply (proj1 (print_call_graph_termination Fixtures.chain) Fixtures.chain_rank);
      [|vm_compute; lia].
    intros f cs c Hf Hc _. unfold Fixtures.chain in Hf. simpl in Hf.
    repeat case_decide; simplify_eq;
      repeat match goal with
             | H : _ ∈ _ :: _ |- _ => apply elem_of_cons in H as [?|H]; simplify_eq
             | H : _ ∈ [] |- _ => by apply elem_of_nil in H
             end; vm_compute; lia.
  - apply (proj2 (print_call_graph_termination Fixtures.mutual_recursion)
             (λ f, f = "A" ∨ f = "B")); [|by right].
    intros f [-> | ->].
    + exists [Some "B"], "B". split_and!; [done|apply list_elem_of_here|by right].
    + exists [Some "A"], "A". split_and!; [done|apply list_elem_of_here|by left].
Defined.

(** ** The builder *)

Section builder_lemmas.
Implicit Types (cg : CallGraph) (fs : gset string) (ctx : option string).

Lemma build_call_graph_unfold node ctx call_graph all_functions :
  build_call_graph node ctx call_graph all_functions =
    for_children build_call_graph (enclosing_function node ctx) (get_children node)
      (default [] call_graph)
      (register node (enclosing_function node ctx) (default ∅ all_functions)).
Proof. by destruct node. Qed.

Lemma for_children_app rec ctx l1 l2 cg fs :
  for_children rec ctx (l1 ++ l2) cg fs =
    for_children rec ctx l2 (for_children rec ctx l1 cg fs).1
                            (for_children rec ctx l1 cg fs).2.
Proof.
  revert cg fs. induction l1 as [|c l1 IH]; intros cg fs; simpl; [done|].
  destruct (is_system_header c); [apply IH|].
  destruct (rec c ctx _ _) as [cg' fs']. apply IH.
Qed.

Lemma for_children_skip rec ctx child rest cg fs :
  is_system_header child = true →
  for_children rec ctx (child :: rest) cg fs = for_children rec ctx rest cg fs.
Proof. intros H. simpl. by rewrite H. Qed.

Lemma for_children_visit rec ctx child rest cg fs :
  is_system_header child = false →
  for_children rec ctx (child :: rest) cg fs =
    let r := rec child ctx (Some (visit_call ctx child cg)) (Some fs) in
    for_children rec ctx rest r.1 r.2.
Proof. intros H. simpl. rewrite H. by destruct (rec child ctx _ _). Qed.

Lemma enclosing_function_method node ctx :
  kind node = CXX_METHOD →
  enclosing_function node ctx
  = Some (semantic_parent_spelling node +:+ "::" +:+ spelling node).
Proof. intros H. unfold enclosing_function. by rewrite H. Qed.

Lemma enclosing_function_function node ctx :
  kind node = FUNCTION_DECL → enclosing_function node ctx = Some (spelling node).
Proof. intros H. unfold enclosing_function. by rewrite H. Qed.

Lemma enclosing_function_other node ctx :
  kind node ≠ CXX_METHOD → kind node ≠ FUNCTION_DECL →
  enclosing_function node ctx = ctx.
Proof.
  intros H1 H2. unfold enclosing_function.
  rewrite (bool_decide_eq_false_2 _ H1), (bool_decide_eq_false_2 _ H2). done.
Qed.

Lemma register_subseteq node ctx fs : fs ⊆ register node ctx fs.
Proof.
  unfold register. destruct (_ || _), (truthy ctx), ctx as [f|]; set_solver.
Qed.

Lemma register_elem_of node f fs : f ≠ "" → f ∈ register node (Some f) fs.
Proof.
  intros Hf. unfold register, kind_truth, truthy.
  rewrite orb_true_r, (bool_decide_eq_true_2 _ Hf). set_solver.
Qed.

(** The function set only grows during the walk. *)
Lemma build_call_graph_functions_mono node :
  ∀ ctx call_graph all_functions,
    default ∅ all_functions ⊆ (build_call_graph node ctx call_graph all_functions).2.
Proof.
  induction node as [k s p t f ch IH] using Cursor_ind.
  intros ctx call_graph all_functions. rewrite build_call_graph_unfold.
  set (ctx' := enclosing_function _ ctx).
  transitivity (register (mkCursor k s p t f ch) ctx' (default ∅ all_functions));
    [apply register_subseteq|].
  generalize (register (mkCursor k s p t f ch) ctx' (default ∅ all_functions)).
  generalize (default [] call_graph). simpl. clear call_graph all_functions.
  induction IH as [|c ch Hc _ IHch]; intros cg fs; simpl; [done|].
  destruct (is_system_header c); [apply IHch|].
  specialize (Hc ctx' (Some (visit_call ctx' c cg)) (Some fs)).
  destruct (build_call_graph c ctx' _ _) as [cg' fs']. simpl in Hc.
  etransitivity; [exact Hc|apply IHch].
Qed.

Lemma for_children_functions_mono ctx ch cg fs :
  fs ⊆ (for_children build_call_graph ctx ch cg fs).2.
Proof.
  revert cg fs. induction ch as [|c ch IH]; intros cg fs; simpl; [done|].
  destruct (is_system_header c); [apply IH|].
  pose proof (build_call_graph_functions_mono c ctx
                (Some (visit_call ctx c cg)) (Some fs)) as Hc.
  destruct (build_call_graph c ctx _ _) as [cg' fs']. simpl in Hc.
  etransitivity; [exact Hc|apply IH].
Qed.

(** *** Edges of one call expression *)

Lemma first_member_ref_cons gc gcs :
  first_member_ref (gc :: gcs) =
    if bool_decide (kind gc = MEMBER_REF_EXPR) then Some gc else first_member_ref gcs.
Proof.
  unfold first_member_ref. rewrite filter_cons.
  destruct (decide (kind gc = MEMBER_REF_EXPR)) as [H|H].
  - by rewrite (bool_decide_eq_true_2 _ H).
  - by rewrite (bool_decide_eq_false_2 _ H).
Qed.

Lemma foldl_dd_append_get {A} (h : A → option string) k (l : list A) cg k' :
  k ≠ k' →
  dict_get (foldl (λ cg x, dd_append cg k (h x)) cg l) k' = dict_get cg k'.
Proof.
  intros Hne. revert cg. induction l as [|x l IH]; intros cg; simpl; [done|].
  by rewrite IH, dd_append_get, decide_False.
Qed.

Lemma foldl_dd_append_edges {A} (h : A → option string) k (l : list A) cg :
  edges_of (foldl (λ cg x, dd_append cg k (h x)) cg l) k = edges_of cg k ++ (h <$> l).
Proof.
  revert cg. induction l as [|x l IH]; intros cg; simpl.
  - by rewrite app_nil_r.
  - by rewrite IH, dd_append_edges_eq, <- app_assoc.
Qed.

Lemma record_call_get f child gcs cg k :
  f ≠ k → dict_get (record_call f child gcs cg) k = dict_get cg k.
Proof.
  intros Hne. induction gcs as [|gc gcs IH]; simpl.
  - by rewrite dd_append_get, decide_False.
  - destruct (bool_decide _); [|done]. by apply foldl_dd_append_get.
Qed.

Lemma record_call_edges f child cg :
  edges_of (record_call f child (get_children child) cg) f
  = edges_of cg f ++ call_targets child.
Proof.
  unfold call_targets. induction (get_children child) as [|gc gcs IH]; simpl.
  - apply dd_append_edges_eq.
  - rewrite first_member_ref_cons. destruct (bool_decide _); [|done].
    apply foldl_dd_append_edges.
Qed.

Lemma visit_call_prefix ctx child cg k :
  edges_of cg k `prefix_of` edges_of (visit_call ctx child cg) k.
Proof.
  unfold visit_call. destruct ctx as [f|]; [|done].
  destruct (_ && _); [|done].
  destruct (decide (f = k)) as [->|Hne].
  - rewrite record_call_edges. by eexists.
  - unfold edges_of. by rewrite record_call_get.
Qed.

(** Edge lists are only ever appended to during the walk. *)
Lemma build_call_graph_edges_mono node :
  ∀ ctx call_graph all_functions k,
    edges_of (default [] call_graph) k
    `prefix_of` edges_of (build_call_graph node ctx call_graph all_functions).1 k.
Proof.
  induction node as [kd s p t f ch IH] using Cursor_ind.
  intros ctx call_graph all_functions k. rewrite build_call_graph_unfold.
  set (ctx' := enclosing_function _ ctx).
  generalize (register (mkCursor kd s p t f ch) ctx' (default ∅ all_functions)).
  generalize (default [] call_graph). simpl. clear call_graph all_functions.
  induction IH as [|c ch Hc _ IHch]; intros cg fs; simpl; [done|].
  destruct (is_system_header c); [apply IHch|].
  specialize (Hc ctx' (Some (visit_call ctx' c cg)) (Some fs) k).
  destruct (build_call_graph c ctx' _ _) as [cg' fs']. simpl in Hc.
  etransitivity; [apply (visit_call_prefix ctx' c cg k)|].
  etransitivity; [exact Hc|apply IHch].
Qed.

Lemma for_children_edges_mono ctx ch cg fs k :
  edges_of cg k `prefix_of` edges_of (for_children build_call_graph ctx ch cg fs).1 k.
Proof.
  revert cg fs. induction ch as [|c ch IH]; intros cg fs; simpl; [done|].
  destruct (is_system_header c); [apply IH|].
  pose proof (build_call_graph_edges_mono c ctx (Some (visit_call ctx c cg)) (Some fs) k) as Hc.
  destruct (build_call_graph c ctx _ _) as [cg' fs']. simpl in Hc.
  etransitivity; [apply (visit_call_prefix ctx c cg k)|].
  etransitivity; [exact Hc|apply IH].
Qed.

End builder_lemmas.

Lemma prefix_app (a b : string) : String.prefix a (a +:+ b) = true.
Proof.
  induction a as [|c a IH]; simpl; [by destruct b|].
  by destruct (Ascii.ascii_dec c c).
Qed.

Lemma str_contains_prefix (sub s : string) :
  String.prefix sub s = true → str_contains sub s = true.
Proof. intros H. destruct s; cbn [str_contains]; by rewrite H. Qed.

Lemma str_contains_app (sub a b : string) : str_contains sub (a +:+ sub +:+ b) = true.
Proof.
  induction a as [|c a IH].
  - change ("" +:+ sub +:+ b) with (sub +:+ b).
    apply str_contains_prefix, prefix_app.
  - change (String c a +:+ sub +:+ b) with (String c (a +:+ sub +:+ b)).
    cbn [str_contains]. rewrite IH. apply orb_true_r.
Qed.

Lemma system_location_header child :
  system_location (location_file child) → is_system_header child = true.
Proof.
  unfold is_system_header.
  intros [->|(name & -> & [[r ->]|[[r ->]|(a & r & ->)]])]; [done|..].
  - by rewrite prefix_app.
  - by rewrite prefix_app, orb_true_r.
  - by rewrite str_contains_app, orb_true_r.
Qed.

(** C10: a child cursor with no file, or with a file under [/usr/include]
    or [/usr/lib] or with [/lib/gcc] in its path, is passed over with all
    that is below it: the graph and the function set the builder returns
    are those it returns for the same node without that child, so no
    declaration inside it is registered and no call inside it adds an edge. *)
Theorem system_child_skipped k s p t f pre child post
    current_func call_graph all_functions :
  system_location (location_file child) →
  build_call_graph (mkCursor k s p t f (pre ++ child :: post))
    current_func call_graph all_functions
  = build_call_graph (mkCursor k s p t f (pre ++ post))
      current_func call_graph all_functions.
Proof.
  intros Hsys%system_location_header.
  rewrite !build_call_graph_unfold. simpl.
  change (register (mkCursor k s p t f (pre ++ child :: post)))
    with (register (mkCursor k s p t f (pre ++ post))).
  change (enclosing_function (mkCursor k s p t f (pre ++ child :: post)))
    with (enclosing_function (mkCursor k s p t f (pre ++ post))).
  rewrite !for_children_app. by rewrite for_children_skip.
Qed.

(** The declarations of [stdio.h] leave no trace in the unit's result. *)
Lemma system_child_skipped_witness :
  build_call_graph (Fixtures.with_stdio [Fixtures.stdio_decl; Fixtures.own_main])
    None None None
  = build_call_graph (Fixtures.with_stdio [Fixtures.own_main]) None None None.
Proof.
  apply (system_child_skipped (OTHER_KIND 350) "test/src/main.cpp" "" "" None
           [] Fixtures.stdio_decl [Fixtures.own_main]).
  right. exists "/usr/include/stdio.h". split; [done|].
  left. by exists "/stdio.h".
Defined.

(** The guard of line 120 at work: a function declaration whose spelling
    is the empty string gives the empty context, which is not registered. *)
Lemma unnamed_function_not_registered :
  enclosing_function Fixtures.unnamed_function None = Some ""
  ∧ elements (build_call_graph Fixtures.unnamed_function None None None).2 = [].
Proof. split; vm_compute; reflexivity. Qed.

(** A context that is a non-empty string after the node has been looked at
    is in the function set the builder returns. *)
Lemma enclosing_function_registered node current_func call_graph all_functions f :
  enclosing_function node current_func = Some f → f ≠ "" →
  f ∈ (build_call_graph node current_func call_graph all_functions).2.
Proof.
  intros Hf Hne. rewrite build_call_graph_unfold, Hf.
  pose proof (for_children_functions_mono (Some f) (get_children node)
                (default [] call_graph)
                (register node (Some f) (default ∅ all_functions))) as Hsub.
  apply Hsub. by apply register_elem_of.
Qed.

(** C3: the code misses the call through the implicit [this]. The call
    expression [step()] lies inside the tracked method [Widget::run] and in
    user code; its first child is a member reference, so the [else] of the
    loop is skipped, and the member reference has no child, so the loop of
    lines 133-136 appends nothing: the builder records no edge at all for
    the call, where every other call expression gets its edge. *)
Lemma implicit_this_call_has_no_edge :
  (build_call_graph Fixtures.implicit_this_tu None None None).1 = []
  ∧ elements (build_call_graph Fixtures.implicit_this_tu None None None).2
    = ["Widget::step"; "Widget::run"].
Proof. split; vm_compute; reflexivity. Qed.

(** ** Merging, normalising and root detection *)

Section pipeline_lemmas.
Implicit Types (g cg global : CallGraph) (fs : gset string) (r : run).

Lemma merge_unit_cons cg func funcs global :
  merge_unit cg (func :: funcs) global =
    merge_unit (dd_getitem cg func).2 funcs (dict_set global func (edges_of cg func)).
Proof.
  unfold merge_unit. simpl. rewrite <- dd_getitem_value.
  by destruct (dd_getitem cg func).
Qed.

Lemma merge_unit_get cg funcs global k :
  dict_get (merge_unit cg funcs global) k =
    if decide (k ∈ funcs) then Some (edges_of cg k) else dict_get global k.
Proof.
  revert cg global. induction funcs as [|a l IH]; intros cg global.
  - rewrite decide_False; [done|]. by intros ?%elem_of_nil.
  - rewrite merge_unit_cons, IH, dd_getitem_edges.
    destruct (decide (k = a)) as [->|Hne].
    + rewrite (decide_True (P := a ∈ a :: l)) by apply list_elem_of_here.
      rewrite dict_get_set_eq. by destruct (decide (a ∈ l)).
    + rewrite dict_get_set_ne by done.
      destruct (decide (k ∈ l)) as [Hin|Hnin].
      * rewrite decide_True; [done|by right].
      * rewrite decide_False; [done|]. by intros [?|?]%elem_of_cons.
Qed.

Lemma elem_of_merge_unit_keys cg funcs global k :
  k ∈ dict_keys (merge_unit cg funcs global) ↔ k ∈ dict_keys global ∨ k ∈ funcs.
Proof.
  rewrite <- !dict_get_is_Some, merge_unit_get.
  destruct (decide (k ∈ funcs)); split; eauto. by intros [?|?].
Qed.

Lemma NoDup_merge_unit_keys cg funcs global :
  NoDup (dict_keys global) → NoDup (dict_keys (merge_unit cg funcs global)).
Proof.
  revert cg global. induction funcs as [|a l IH]; intros cg global Hnd; [done|].
  rewrite merge_unit_cons. by apply IH, NoDup_dict_keys_set.
Qed.

Lemma elem_of_sorted fs k : k ∈ sorted fs ↔ k ∈ fs.
Proof. unfold sorted. by rewrite merge_sort_Permutation, elem_of_elements. Qed.

Lemma leaf_marked_nonempty cs : leaf_marked cs ≠ [].
Proof. by destruct cs. Qed.

Lemma leaf_marked_idemp cs : leaf_marked (leaf_marked cs) = leaf_marked cs.
Proof. by destruct cs. Qed.

Lemma normalize_entry_get g func k :
  dict_get (normalize_entry g func) k =
    if decide (func = k) then Some (leaf_marked (edges_of g func)) else dict_get g k.
Proof.
  unfold normalize_entry. destruct (dd_getitem g func) as [v g'] eqn:Hgi.
  assert (v = edges_of g func) as -> by (by rewrite <- dd_getitem_value, Hgi).
  assert (g' = (dd_getitem g func).2) as -> by (by rewrite Hgi).
  destruct (edges_of g func) as [|c cs] eqn:Hedges; simpl.
  - rewrite dd_append_get, dd_getitem_edges, Hedges, dd_getitem_get.
    by destruct (decide (func = k)).
  - rewrite dd_getitem_get, Hedges. done.
Qed.

Lemma normalize_entry_edges g func k :
  edges_of (normalize_entry g func) k =
    if decide (func = k) then leaf_marked (edges_of g func) else edges_of g k.
Proof.
  unfold edges_of at 1. rewrite normalize_entry_get. by destruct (decide (func = k)).
Qed.

Lemma NoDup_normalize_entry_keys g func :
  NoDup (dict_keys g) → NoDup (dict_keys (normalize_entry g func)).
Proof.
  intros Hnd. unfold normalize_entry. destruct (dd_getitem g func) as [v g'] eqn:Hgi.
  assert (g' = (dd_getitem g func).2) as -> by (by rewrite Hgi).
  destruct (bool_decide _).
  - by apply NoDup_dd_append_keys, NoDup_dd_getitem_keys.
  - by apply NoDup_dd_getitem_keys.
Qed.

Lemma normalize_get all_funcs g k :
  dict_get (normalize all_funcs g) k =
    if decide (k ∈ all_funcs) then Some (leaf_marked (edges_of g k)) else dict_get g k.
Proof.
  unfold normalize. revert g. induction all_funcs as [|a l IH]; intros g; cbn [foldl].
  - rewrite decide_False; [done|]. by intros ?%elem_of_nil.
  - rewrite IH, normalize_entry_edges, normalize_entry_get.
    destruct (decide (a = k)) as [->|Hne].
    + rewrite (decide_True (P := k ∈ k :: l)) by apply list_elem_of_here.
      rewrite leaf_marked_idemp. by destruct (decide (k ∈ l)).
    + destruct (decide (k ∈ l)) as [Hin|Hnin].
      * rewrite decide_True; [done|by right].
      * rewrite decide_False; [done|]. intros [?|?]%elem_of_cons; by simplify_eq.
Qed.

Lemma elem_of_normalize_keys all_funcs g k :
  k ∈ dict_keys (normalize all_funcs g) ↔ k ∈ dict_keys g ∨ k ∈ all_funcs.
Proof.
  rewrite <- !dict_get_is_Some, normalize_get.
  destruct (decide (k ∈ all_funcs)); split; eauto. by intros [?|?].
Qed.

Lemma NoDup_normalize_keys all_funcs g :
  NoDup (dict_keys g) → NoDup (dict_keys (normalize all_funcs g)).
Proof.
  unfold normalize. revert g. induction all_funcs as [|a l IH]; intros g Hnd; [done|].
  simpl. by apply IH, NoDup_normalize_entry_keys.
Qed.

(** The set of called names that [find_root_functions] builds. *)
Lemma elem_of_all_called (x : option string) (acc : gset (option string))
    (values : list callees) :
  x ∈ foldl (λ acc (cs : callees), acc ∪ list_to_set cs) acc values
  ↔ x ∈ acc ∨ ∃ cs, cs ∈ values ∧ x ∈ cs.
Proof.
  revert acc. induction values as [|cs l IH]; intros acc; simpl.
  - split; [by left|]. intros [?|(cs & Hcs%elem_of_nil & _)]; done.
  - rewrite IH, elem_of_union, elem_of_list_to_set. split.
    + intros [[?|?]|(cs' & ? & ?)]; [by left| |].
      * right. exists cs. split; [by left|done].
      * right. exists cs'. split; [by right|done].
    + intros [?|(cs' & [->|?]%elem_of_cons & ?)]; [by left; left|by left; right|].
      right. by exists cs'.
Qed.

Lemma elem_of_find_root_functions g f :
  f ∈ find_root_functions g
  ↔ f ∈ dict_keys g ∧ ∀ cs, cs ∈ dict_values g → Some f ∉ cs.
Proof.
  unfold find_root_functions. rewrite list_elem_of_filter, elem_of_all_called.
  split.
  - intros [Hnot Hkey]. split; [done|]. intros cs Hcs Hf.
    apply Hnot. right. by exists cs.
  - intros [Hkey Hnot]. split; [|done].
    intros [?%not_elem_of_empty|(cs & Hcs & Hf)]; [done|]. by apply (Hnot cs).
Qed.

Lemma elem_of_dict_values g cs :
  NoDup (dict_keys g) → cs ∈ dict_values g ↔ ∃ k, dict_get g k = Some cs.
Proof.
  intros Hnd. unfold dict_values. rewrite list_elem_of_fmap. split.
  - intros ([k v] & -> & Hin). exists k. by apply dict_elem_of_get.
  - intros [k Hk%dict_get_elem_of]. by exists (k, cs).
Qed.

Lemma process_unit_keys r u : keys_are_functions r → keys_are_functions (process_unit r u).
Proof.
  intros [Hnd Hkeys]. unfold process_unit. destruct (parse u) as [cursor|e]; [|done].
  destruct (build_call_graph cursor None None None) as [cg funcs]. split; simpl.
  - by apply NoDup_merge_unit_keys.
  - intros k. rewrite elem_of_merge_unit_keys, elem_of_elements, elem_of_union, Hkeys. done.
Qed.

Lemma process_units_keys source_files r :
  keys_are_functions r → keys_are_functions (process_units source_files r).
Proof.
  unfold process_units. revert r.
  induction source_files as [|u l IH]; intros r Hr; simpl; [done|].
  by apply IH, process_unit_keys.
Qed.

End pipeline_lemmas.

Lemma keys_are_functions_init out : keys_are_functions (mkRun [] ∅ out).
Proof. split; simpl; [apply NoDup_nil_2|]. intros k. set_solver. Qed.

(** C2: on the merged and leaf-normalised graph of any list of source
    files, the roots are exactly the members of the function set that no
    edge list of the graph names, each listed once. *)
Theorem roots_are_uncalled_functions (source_files : list unit_input) :
  let r := process_units source_files (mkRun [] ∅ "") in
  let G := normalize (sorted (all_functions r)) (global_call_graph r) in
  (∀ f, f ∈ find_root_functions G
        ↔ f ∈ all_functions r ∧ ∀ caller cs, dict_get G caller = Some cs → Some f ∉ cs)
  ∧ NoDup (find_root_functions G).
Proof.
  intros r G.
  destruct (process_units_keys source_files _ (keys_are_functions_init "")) as [Hnd Hkeys].
  fold r in Hnd, Hkeys.
  assert (NoDup (dict_keys G)) as HndG by (by apply NoDup_normalize_keys).
  split.
  - intros f. rewrite elem_of_find_root_functions.
    unfold G at 1. rewrite elem_of_normalize_keys, elem_of_sorted, Hkeys.
    split.
    + intros [Hf Hnot]. split; [by destruct Hf|].
      intros caller cs Hcs. apply Hnot. apply elem_of_dict_values; eauto.
    + intros [Hf Hnot]. split; [by left|].
      intros cs [caller Hcs]%elem_of_dict_values; [|done]. by apply (Hnot caller).
  - unfold find_root_functions. by apply NoDup_filter.
Qed.

(** C5: after normalisation every member of the function set that had no
    recorded callee has the entry [[None]], every member that had some keeps
    its edge list, and so every member has a non-empty entry. *)
Theorem leaf_normalization (r : run) (f : string) :
  f ∈ all_functions r →
  let G := normalize (sorted (all_functions r)) (global_call_graph r) in
  (edges_of (global_call_graph r) f = [] → dict_get G f = Some [None])
  ∧ (edges_of (global_call_graph r) f ≠ [] →
     dict_get G f = Some (edges_of (global_call_graph r) f))
  ∧ (∃ cs, dict_get G f = Some cs ∧ cs ≠ []).
Proof.
  intros Hf G.
  assert (dict_get G f = Some (leaf_marked (edges_of (global_call_graph r) f))) as HG.
  { unfold G. rewrite normalize_get, decide_True; [done|]. by apply elem_of_sorted. }
  split_and!.
  - intros Hnil. by rewrite HG, Hnil.
  - intros Hne. rewrite HG. by destruct (edges_of _ f).
  - eexists. split; [exact HG|apply leaf_marked_nonempty].
Qed.

(** [Widget::run] of the scenario. *)
Lemma leaf_normalization_witness :
  let r := process_units Fixtures.scenario (mkRun [] ∅ "") in
  let G := normalize (sorted (all_functions r)) (global_call_graph r) in
  (edges_of (global_call_graph r) "Widget::run" = [] →
   dict_get G "Widget::run" = Some [None])
  ∧ (edges_of (global_call_graph r) "Widget::run" ≠ [] →
     dict_get G "Widget::run" = Some (edges_of (global_call_graph r) "Widget::run"))
  ∧ (∃ cs, dict_get G "Widget::run" = Some cs ∧ cs ≠ []).
Proof.
  apply (leaf_normalization (process_units Fixtures.scenario (mkRun [] ∅ "")) "Widget::run").
  refine (bool_decide_unpack _ _). vm_compute. exact I.
Defined.

(** C4: when two units that parse are processed one after the other and
    both declare [f], the first with the edge list [xs] and the second with
    [ys], the global graph maps [f] to [xs] after the first and to [ys]
    after the second (for [xs = [x]] and [ys = [y]] in particular): every
    function of the second unit's set has its global entry replaced by that
    unit's edge list, and the function set is the union. *)
Theorem merge_last_writer_wins r u1 u2 c1 c2 f xs ys :
  parse u1 = inl c1 → parse u2 = inl c2 →
  f ∈ (build_call_graph c1 None None None).2 →
  f ∈ (build_call_graph c2 None None None).2 →
  dict_get (build_call_graph c1 None None None).1 f = Some xs →
  dict_get (build_call_graph c2 None None None).1 f = Some ys →
  dict_get (global_call_graph (process_units [u1] r)) f = Some xs
  ∧ dict_get (global_call_graph (process_units [u1; u2] r)) f = Some ys
  ∧ (∀ k, k ∈ (build_call_graph c2 None None None).2 →
          dict_get (global_call_graph (process_units [u1; u2] r)) k
          = Some (edges_of (build_call_graph c2 None None None).1 k))
  ∧ all_functions (process_units [u1; u2] r)
    = all_functions r ∪ (build_call_graph c1 None None None).2
                      ∪ (build_call_graph c2 None None None).2.
Proof.
  intros Hu1 Hu2 Hf1 Hf2 Hxs Hys.
  unfold process_units. cbn [foldl]. unfold process_unit.
  rewrite Hu1, Hu2.
  destruct (build_call_graph c1 None None None) as [cg1 fs1].
  destruct (build_call_graph c2 None None None) as [cg2 fs2].
  cbn [global_call_graph all_functions echo fst snd] in *.
  assert (∀ cg (fs : gset string) global k, k ∈ fs →
            dict_get (merge_unit cg (elements fs) global) k = Some (edges_of cg k)) as Hm.
  { intros cg fs global k Hk. rewrite merge_unit_get, decide_True; [done|].
    by apply elem_of_elements. }
  split_and!.
  - rewrite Hm by done. unfold edges_of. by rewrite Hxs.
  - rewrite Hm by done. unfold edges_of. by rewrite Hys.
  - intros k Hk. by apply Hm.
  - done.
Qed.

(** Two files that define [f], calling [x] in the first and [y] in the
    second. *)
Lemma merge_last_writer_wins_witness :
  dict_get (global_call_graph
              (process_units [Fixtures.unit_f "a.cpp" "x"; Fixtures.unit_f "b.cpp" "y"]
                 (mkRun [] ∅ ""))) "f"
  = Some [Some "y"].
Proof.
  refine (proj1 (proj2
    (merge_last_writer_wins (mkRun [] ∅ "")
       (Fixtures.unit_f "a.cpp" "x") (Fixtures.unit_f "b.cpp" "y")
       _ _ "f" [Some "x"] [Some "y"] eq_refl eq_refl _ _ _ _))).
  - refine (bool_decide_unpack _ _). vm_compute. exact I.
  - refine (bool_decide_unpack _ _). vm_compute. exact I.
  - vm_compute. reflexivity.
  - vm_compute. reflexivity.
Defined.

Lemma process_units_app l1 l2 r :
  process_units (l1 ++ l2) r = process_units l2 (process_units l1 r).
Proof. unfold process_units. apply foldl_app. Qed.

(** What a unit adds to the graph and to the function set does not depend
    on what was printed before. *)
Lemma process_units_accumulators l r r' :
  global_call_graph r = global_call_graph r' →
  all_functions r = all_functions r' →
  global_call_graph (process_units l r) = global_call_graph (process_units l r')
  ∧ all_functions (process_units l r) = all_functions (process_units l r').
Proof.
  unfold process_units. revert r r'.
  induction l as [|u l IH]; intros r r' Hg Hf; cbn [foldl]; [done|].
  apply IH; unfold process_unit; destruct (parse u) as [cursor|e]; simpl;
    try destruct (build_call_graph cursor None None None); simpl; congruence.
Qed.

(** C8: a unit whose parse raises [TranslationUnitLoadError] gets its
    path, the [args] line and the line [Error parsing <path>: <message>]
    printed; it changes neither the global graph nor the function set; the
    loop goes on with the units after it; and the graph and the set at the
    end are those of the run without that unit. *)
Theorem parse_failure_skips_unit before u after r e :
  parse u = inr e →
  let reported :=
    echo ("Error parsing " +:+ cpp_file u +:+ ": " +:+ e) newline
      (echo ("args: " +:+ args_text u) newline
         (echo (cpp_file u) newline (process_units before r))) in
  process_units (before ++ [u]) r = reported
  ∧ global_call_graph reported = global_call_graph (process_units before r)
  ∧ all_functions reported = all_functions (process_units before r)
  ∧ process_units (before ++ u :: after) r = process_units after reported
  ∧ global_call_graph (process_units (before ++ u :: after) r)
    = global_call_graph (process_units (before ++ after) r)
  ∧ all_functions (process_units (before ++ u :: after) r)
    = all_functions (process_units (before ++ after) r).
Proof.
  intros Hu reported.
  assert (process_units [u] (process_units before r) = reported) as Hone.
  { unfold process_units at 1. cbn [foldl]. unfold process_unit. by rewrite Hu. }
  assert (process_units (before ++ u :: after) r = process_units after reported) as Hall.
  { rewrite (process_units_app before (u :: after)).
    change (u :: after) with ([u] ++ after). by rewrite process_units_app, Hone. }
  split_and!; [by rewrite process_units_app|done|done|done|..].
  - rewrite Hall, process_units_app.
    by apply (process_units_accumulators after reported (process_units before r)).
  - rewrite Hall, process_units_app.
    by apply (process_units_accumulators after reported (process_units before r)).
Qed.

(** A file that does not parse, between two that do. *)
Lemma parse_failure_skips_unit_witness :
  global_call_graph
    (process_units
       ([Fixtures.unit_f "a.cpp" "x"] ++ Fixtures.broken_unit :: [Fixtures.unit_f "b.cpp" "y"])
       (mkRun [] ∅ ""))
  = global_call_graph
      (process_units ([Fixtures.unit_f "a.cpp" "x"] ++ [Fixtures.unit_f "b.cpp" "y"])
         (mkRun [] ∅ "")).
Proof.
  exact (proj1 (proj2 (proj2 (proj2 (proj2
    (parse_failure_skips_unit [Fixtures.unit_f "a.cpp" "x"] Fixtures.broken_unit
       [Fixtures.unit_f "b.cpp" "y"] (mkRun [] ∅ "")
       "Error parsing translation unit." eq_refl)))))).
Defined.

(** C7, as stated, fails on the scenario: none of [main()], [-> helper()]
    and [-> Widget::run()] is a line of the output. *)
Lemma scenario_not_three_lines :
  let out := lines (output (main 1000 Fixtures.scenario).2) in
  bool_decide ("main()" ∈ out) = false
  ∧ bool_decide ("-> helper()" ∈ out) = false
  ∧ bool_decide ("-> Widget::run()" ∈ out) = false.
Proof. vm_compute. done. Qed.

(** C7, amended: on the scenario the function set is
    [{main, helper, Widget::run}], the only root is [main], and the call
    graph is printed on one line, after the header [Call graph:]: every
    single callee follows its caller on the same line, and the leaf ends in
    [-> None]. *)
Theorem scenario_rendering (d : nat) :
  let r := process_units Fixtures.scenario (mkRun [] ∅ "") in
  all_functions r = {[ "main"; "helper"; "Widget::run" ]}
  ∧ find_root_functions (normalize (sorted (all_functions r)) (global_call_graph r))
    = ["main"]
  ∧ (main (4 + d) Fixtures.scenario).1 = Returned
  ∧ lines (output (main (4 + d) Fixtures.scenario).2)
    = [ "test/src/main.cpp"; "args: ['-I./test/inc']"; ""; "Call graph:";
        "main()-> helper()-> Widget::run()-> None"; "" ].
Proof. split_and!; vm_compute; reflexivity. Qed.

(** * Further properties *)

(** ** The builder, over whole trees *)

Section builder_tree_lemmas.
Implicit Types (cg : CallGraph) (fs : gset string) (ctx : option string).

Lemma declared_names_unfold node :
  declared_names node
  = own_name node ++ over_user_children declared_names (get_children node).
Proof. by destruct node. Qed.

Lemma call_edges_unfold node ctx :
  call_edges node ctx
  = over_user_children
      (λ child, edges_of_call (enclosing_function node ctx) child
                ++ call_edges child (enclosing_function node ctx))
      (get_children node).
Proof. by destruct node. Qed.

Lemma named_app l1 l2 : named (l1 ++ l2) = named l1 ++ named l2.
Proof. apply filter_app. Qed.

Lemma named_app_nil l1 l2 : named (l1 ++ l2) = [] → named l1 = [] ∧ named l2 = [].
Proof. rewrite named_app. apply app_eq_nil. Qed.

Lemma dict_set_set d k v v' : dict_set (dict_set d k v) k v' = dict_set d k v'.
Proof.
  induction d as [|[k0 v0] d IH]; simpl.
  - by rewrite decide_True.
  - destruct (decide (k0 = k)) as [->|Hne]; simpl.
    + by rewrite decide_True.
    + by rewrite decide_False, IH.
Qed.

Lemma dd_append_dict_set d k x : dd_append d k x = dict_set d k (edges_of d k ++ [x]).
Proof.
  unfold dd_append, dd_getitem, edges_of.
  destruct (dict_get d k); simpl; [done|]. apply dict_set_set.
Qed.

Lemma Forall_dict_set (P : string * callees → Prop) d k v :
  Forall P d → P (k, v) → Forall P (dict_set d k v).
Proof.
  intros Hd Hkv. induction Hd as [|[k0 v0] d H0 Hd IH]; simpl.
  - by apply Forall_singleton.
  - destruct (decide (k0 = k)); by constructor.
Qed.

Lemma builder_entry_edges d k :
  Forall builder_entry d → Forall is_Some (edges_of d k).
Proof.
  intros Hd. unfold edges_of. destruct (dict_get d k) as [v|] eqn:Hget; [|done].
  apply dict_get_elem_of in Hget. rewrite Forall_forall in Hd.
  by destruct (Hd _ Hget) as (_ & _ & ?).
Qed.

Lemma dd_append_builder_entry d k x :
  Forall builder_entry d → k ≠ "" → is_Some x → Forall builder_entry (dd_append d k x).
Proof.
  intros Hd Hk Hx. rewrite dd_append_dict_set. apply Forall_dict_set; [done|].
  split_and!; simpl; [done|by destruct (edges_of d k)|].
  apply Forall_app. split; [by apply builder_entry_edges|by apply Forall_singleton].
Qed.

Lemma foldl_dd_append_builder_entry {A} (h : A → option string) f (l : list A) cg :
  Forall builder_entry cg → f ≠ "" → (∀ x, is_Some (h x)) →
  Forall builder_entry (foldl (λ cg x, dd_append cg f (h x)) cg l).
Proof.
  intros Hcg Hf Hh. revert cg Hcg.
  induction l as [|x l IHl]; intros cg Hcg; simpl; [done|].
  by apply IHl, dd_append_builder_entry.
Qed.

Lemma record_call_builder_entry f child gcs cg :
  Forall builder_entry cg → f ≠ "" →
  Forall builder_entry (record_call f child gcs cg).
Proof.
  intros Hcg Hf. induction gcs as [|gc gcs IH]; simpl.
  - by apply dd_append_builder_entry.
  - destruct (bool_decide _); [|done].
    by apply (foldl_dd_append_builder_entry
                (λ cxx, Some (type_spelling cxx +:+ "::" +:+ spelling gc))).
Qed.

Lemma visit_call_builder_entry ctx child cg :
  Forall builder_entry cg → Forall builder_entry (visit_call ctx child cg).
Proof.
  intros Hcg. unfold visit_call. destruct ctx as [f|]; [|done].
  destruct (truthy (Some f)) eqn:Ht; simpl; [|done].
  destruct (bool_decide (kind child = CALL_EXPR)); [|done].
  apply record_call_builder_entry; [done|]. by apply bool_decide_eq_true in Ht.
Qed.

Lemma build_call_graph_builder_entry node :
  ∀ ctx call_graph all_functions,
    Forall builder_entry (default [] call_graph) →
    Forall builder_entry (build_call_graph node ctx call_graph all_functions).1.
Proof.
  induction node as [kd s p t f ch IH] using Cursor_ind.
  intros ctx call_graph all_functions. rewrite build_call_graph_unfold.
  set (ctx' := enclosing_function _ ctx).
  generalize (register (mkCursor kd s p t f ch) ctx' (default ∅ all_functions)).
  generalize (default [] call_graph). simpl. clear call_graph all_functions.
  induction IH as [|c ch Hc _ IHch]; intros cg fs Hcg; simpl; [done|].
  destruct (is_system_header c); [by apply IHch|].
  specialize (Hc ctx' (Some (visit_call ctx' c cg)) (Some fs)
                (visit_call_builder_entry ctx' c cg Hcg)).
  destruct (build_call_graph c ctx' _ _) as [cg' fs']. by apply IHch.
Qed.

(** *** Keys and the function set *)

Lemma elem_of_foldl_dd_append_keys {A} (h : A → option string) f (l : list A) cg k :
  k ∈ dict_keys (foldl (λ cg x, dd_append cg f (h x)) cg l) → k = f ∨ k ∈ dict_keys cg.
Proof.
  revert cg. induction l as [|x l IHl]; intros cg; simpl; [by right|].
  intros [?|?%elem_of_dd_append_keys]%IHl; [by left|done].
Qed.

Lemma elem_of_record_call_keys f child gcs cg k :
  k ∈ dict_keys (record_call f child gcs cg) → k = f ∨ k ∈ dict_keys cg.
Proof.
  induction gcs as [|gc gcs IH]; simpl.
  - by intros ?%elem_of_dd_append_keys.
  - destruct (bool_decide _); [|done]. apply elem_of_foldl_dd_append_keys.
Qed.

Lemma elem_of_visit_call_keys ctx child cg k :
  k ∈ dict_keys (visit_call ctx child cg) →
  k ∈ dict_keys cg ∨ (ctx = Some k ∧ k ≠ "").
Proof.
  unfold visit_call. destruct ctx as [f|]; [|by left].
  destruct (truthy (Some f)) eqn:Ht; simpl; [|by left].
  destruct (bool_decide (kind child = CALL_EXPR)); [|by left].
  intros [->|?]%elem_of_record_call_keys; [|by left].
  right. split; [done|]. by apply bool_decide_eq_true in Ht.
Qed.

Lemma build_call_graph_keys_registered node :
  ∀ ctx call_graph all_functions,
    (∀ k, k ∈ dict_keys (default [] call_graph) → k ∈ default ∅ all_functions) →
    ∀ k, k ∈ dict_keys (build_call_graph node ctx call_graph all_functions).1 →
         k ∈ (build_call_graph node ctx call_graph all_functions).2.
Proof.
  induction node as [kd s p t f ch IH] using Cursor_ind.
  intros ctx call_graph all_functions Hinv. rewrite build_call_graph_unfold.
  set (ctx' := enclosing_function _ ctx).
  assert (∀ g, ctx' = Some g → g ≠ "" →
               g ∈ register (mkCursor kd s p t f ch) ctx' (default ∅ all_functions)) as Hown.
  { intros g -> Hg. by apply register_elem_of. }
  assert (∀ k, k ∈ dict_keys (default [] call_graph) →
               k ∈ register (mkCursor kd s p t f ch) ctx' (default ∅ all_functions)) as Hinv'.
  { intros k Hk. by apply register_subseteq, Hinv. }
  revert Hown Hinv'.
  generalize (register (mkCursor kd s p t f ch) ctx' (default ∅ all_functions)).
  generalize (default [] call_graph). simpl. clear call_graph all_functions Hinv.
  induction IH as [|c ch Hc _ IHch]; intros cg fs Hown Hinv; simpl; [done|].
  destruct (is_system_header c); [by apply IHch|].
  specialize (Hc ctx' (Some (visit_call ctx' c cg)) (Some fs)).
  pose proof (build_call_graph_functions_mono c ctx'
                (Some (visit_call ctx' c cg)) (Some fs)) as Hmono.
  destruct (build_call_graph c ctx' _ _) as [cg' fs']. simpl in Hc, Hmono.
  apply IHch.
  - intros g Hg Hne. by apply Hmono, Hown.
  - apply Hc. intros k [?|[? ?]]%elem_of_visit_call_keys; [by apply Hinv|by apply Hown].
Qed.

End builder_tree_lemmas.

Section builder_refinement_lemmas.
Implicit Types (cg : CallGraph) (fs : gset string) (ctx : option string).

Lemma callees_in_app k l1 l2 : callees_in k (l1 ++ l2) = callees_in k l1 ++ callees_in k l2.
Proof. unfold callees_in. by rewrite filter_app, fmap_app. Qed.

Lemma callees_in_same k (l : callees) : callees_in k ((λ c, (k, c)) <$> l) = l.
Proof.
  unfold callees_in. induction l as [|c l IH]; [done|].
  csimpl. rewrite filter_cons, decide_True by done. csimpl. by rewrite IH.
Qed.

Lemma callees_in_other k f (l : callees) : f ≠ k → callees_in k ((λ c, (f, c)) <$> l) = [].
Proof.
  intros Hne. unfold callees_in. induction l as [|c l IH]; [done|].
  csimpl. by rewrite filter_cons, decide_False.
Qed.

Lemma visit_call_edges ctx child cg k :
  edges_of (visit_call ctx child cg) k
  = edges_of cg k ++ callees_in k (edges_of_call ctx child).
Proof.
  unfold visit_call, edges_of_call. destruct ctx as [f|]; [|by rewrite app_nil_r].
  destruct (_ && _); [|by rewrite app_nil_r].
  destruct (decide (f = k)) as [->|Hne].
  - by rewrite record_call_edges, callees_in_same.
  - rewrite callees_in_other, app_nil_r by done.
    unfold edges_of. by rewrite record_call_get.
Qed.

Lemma build_call_graph_edges node :
  ∀ ctx call_graph all_functions k,
    edges_of (build_call_graph node ctx call_graph all_functions).1 k
    = edges_of (default [] call_graph) k ++ callees_in k (call_edges node ctx).
Proof.
  induction node as [kd s p t f ch IH] using Cursor_ind.
  intros ctx call_graph all_functions k.
  rewrite build_call_graph_unfold, call_edges_unfold.
  set (ctx' := enclosing_function _ ctx).
  generalize (register (mkCursor kd s p t f ch) ctx' (default ∅ all_functions)).
  generalize (default [] call_graph). simpl. clear call_graph all_functions.
  induction IH as [|c ch Hc _ IHch]; intros cg fs; simpl.
  - by rewrite app_nil_r.
  - destruct (is_system_header c); [apply IHch|].
    specialize (Hc ctx' (Some (visit_call ctx' c cg)) (Some fs) k).
    destruct (build_call_graph c ctx' _ _) as [cg' fs']. simpl in Hc.
    rewrite IHch, Hc, visit_call_edges, !callees_in_app. by rewrite <- !app_assoc.
Qed.

(** *** The function set *)

Lemma register_own_name node ctx fs :
  (∀ g, ctx = Some g → g ≠ "" → g ∈ fs) →
  register node (enclosing_function node ctx) fs
  = fs ∪ list_to_set (named (own_name node)).
Proof.
  intros Hctx. unfold register, enclosing_function, own_name, kind_truth, named.
  rewrite orb_true_r.
  destruct (bool_decide (kind node = CXX_METHOD));
    [|destruct (bool_decide (kind node = FUNCTION_DECL))]; simpl.
  - rewrite filter_cons. destruct (decide (_ ≠ "")) as [Hn|Hn].
    + rewrite (bool_decide_eq_true_2 _ Hn). set_solver.
    + rewrite (bool_decide_eq_false_2 _ Hn). set_solver.
  - rewrite filter_cons. destruct (decide (_ ≠ "")) as [Hn|Hn].
    + rewrite (bool_decide_eq_true_2 _ Hn). set_solver.
    + rewrite (bool_decide_eq_false_2 _ Hn). set_solver.
  - destruct ctx as [g|]; simpl; [|set_solver].
    destruct (bool_decide (g ≠ "")) eqn:Hg; [|set_solver].
    apply bool_decide_eq_true in Hg. specialize (Hctx g eq_refl Hg). set_solver.
Qed.

Lemma build_call_graph_functions node :
  ∀ ctx call_graph all_functions,
    (build_call_graph node ctx call_graph all_functions).2
    = register node (enclosing_function node ctx) (default ∅ all_functions)
      ∪ list_to_set (named (over_user_children declared_names (get_children node))).
Proof.
  induction node as [kd s p t f ch IH] using Cursor_ind.
  intros ctx call_graph all_functions. rewrite build_call_graph_unfold.
  set (ctx' := enclosing_function _ ctx).
  assert (∀ g, ctx' = Some g → g ≠ "" →
               g ∈ register (mkCursor kd s p t f ch) ctx' (default ∅ all_functions)) as Hown.
  { intros g -> Hg. by apply register_elem_of. }
  revert Hown.
  generalize (register (mkCursor kd s p t f ch) ctx' (default ∅ all_functions)).
  generalize (default [] call_graph). simpl. clear call_graph all_functions.
  induction IH as [|c ch Hc _ IHch]; intros cg fs Hown; simpl.
  - set_solver.
  - destruct (is_system_header c); [by apply IHch|].
    specialize (Hc ctx' (Some (visit_call ctx' c cg)) (Some fs)).
    pose proof (build_call_graph_functions_mono c ctx'
                  (Some (visit_call ctx' c cg)) (Some fs)) as Hmono.
    destruct (build_call_graph c ctx' _ _) as [cg' fs']. simpl in Hc, Hmono.
    rewrite IHch by (intros g Hg Hne; by apply Hmono, Hown).
    rewrite Hc, (register_own_name c ctx' fs Hown).
    rewrite (declared_names_unfold c), !named_app, !list_to_set_app_L.
    set_solver.
Qed.

(** *** Trees without a named declaration *)

Lemma enclosing_function_unnamed node ctx :
  truthy ctx = false → named (own_name node) = [] →
  truthy (enclosing_function node ctx) = false.
Proof.
  intros Hctx. unfold enclosing_function, own_name, named, kind_truth.
  rewrite orb_true_r.
  destruct (bool_decide (kind node = CXX_METHOD));
    [|destruct (bool_decide (kind node = FUNCTION_DECL))]; [| |done].
  - rewrite filter_cons. destruct (decide (_ ≠ "")) as [Hn|Hn]; [done|].
    intros _. simpl. by rewrite (bool_decide_eq_false_2 _ Hn).
  - rewrite filter_cons. destruct (decide (_ ≠ "")) as [Hn|Hn]; [done|].
    intros _. simpl. by rewrite (bool_decide_eq_false_2 _ Hn).
Qed.

Lemma register_falsy node ctx fs : truthy ctx = false → register node ctx fs = fs.
Proof. intros H. unfold register. rewrite H. by destruct (_ || _). Qed.

Lemma visit_call_falsy ctx child cg : truthy ctx = false → visit_call ctx child cg = cg.
Proof. intros H. unfold visit_call. rewrite H. by destruct ctx. Qed.

Lemma build_call_graph_unnamed node :
  ∀ ctx call_graph all_functions,
    truthy ctx = false → named (declared_names node) = [] →
    build_call_graph node ctx call_graph all_functions
    = (default [] call_graph, default ∅ all_functions).
Proof.
  induction node as [kd s p t f ch IH] using Cursor_ind.
  intros ctx call_graph all_functions Hctx Hnames.
  rewrite declared_names_unfold in Hnames.
  apply named_app_nil in Hnames as [Hown Hch].
  rewrite build_call_graph_unfold.
  pose proof (enclosing_function_unnamed _ ctx Hctx Hown) as Hctx'.
  rewrite (register_falsy _ _ _ Hctx').
  revert Hctx'. generalize (enclosing_function (mkCursor kd s p t f ch) ctx).
  intros ctx' Hctx'.
  generalize (default ∅ all_functions). generalize (default [] call_graph).
  simpl in *. clear call_graph all_functions Hown.
  induction IH as [|c ch Hc _ IHch]; intros cg fs; simpl; [done|].
  simpl in Hch. destruct (is_system_header c); [by apply IHch|].
  apply named_app_nil in Hch as [Hc' Hch].
  rewrite (visit_call_falsy _ _ _ Hctx'), (Hc ctx' _ _ Hctx' Hc').
  by apply IHch.
Qed.

End builder_refinement_lemmas.

(** X1: the builder keeps every key of the graph inside the function set.
    When every key of the graph it is handed is in the set it is handed (as
    for the empty defaults), every key of the graph it returns is in the
    set it returns, whatever context it starts with: an edge is only
    recorded under a context that has been registered. *)
Theorem unit_graph_keys_are_functions node current_func call_graph all_functions :
  (∀ k, k ∈ dict_keys (default [] call_graph) → k ∈ default ∅ all_functions) →
  ∀ k, k ∈ dict_keys (build_call_graph node current_func call_graph all_functions).1 →
       k ∈ (build_call_graph node current_func call_graph all_functions).2.
Proof. apply build_call_graph_keys_registered. Qed.

(** The callers of the scenario are functions of its set. *)
Lemma unit_graph_keys_are_functions_witness :
  "helper" ∈ (build_call_graph Fixtures.scenario_tu None None None).2.
Proof.
  apply (unit_graph_keys_are_functions Fixtures.scenario_tu None None None).
  - intros k Hk. by apply elem_of_nil in Hk.
  - refine (bool_decide_unpack _ _). vm_compute. exact I.
Defined.

(** X2: started without a context, the builder adds to the function set
    exactly the non-empty names of the function and method declarations of
    the tree that are not below a child in a system header, methods under
    their qualified name; a name that is only called is never added. *)
Theorem function_set_is_declared_names node call_graph all_functions :
  (build_call_graph node None call_graph all_functions).2
  = default ∅ all_functions ∪ list_to_set (named (declared_names node)).
Proof.
  rewrite build_call_graph_functions, register_own_name by done.
  rewrite declared_names_unfold, named_app, list_to_set_app_L. set_solver.
Qed.

(** X3: every entry the builder writes has a non-empty caller and at least
    one callee, and every callee is a name: the builder never leaves an
    empty edge list and never writes the leaf marker [None]. *)
Theorem unit_graph_entries node current_func call_graph all_functions :
  Forall builder_entry (default [] call_graph) →
  Forall builder_entry (build_call_graph node current_func call_graph all_functions).1.
Proof. apply build_call_graph_builder_entry. Qed.

(** The entries of the scenario's unit graph. *)
Lemma unit_graph_entries_witness :
  Forall builder_entry (build_call_graph Fixtures.scenario_tu None None None).1.
Proof.
  apply (unit_graph_entries Fixtures.scenario_tu None None None). apply Forall_nil_2.
Defined.

(** X4: the graph the builder returns is the stream of edges of the walk
    grouped by caller: the edge list of every caller is the list it had,
    followed by the callees of that caller's edges in the order the walk
    meets them. *)
Theorem unit_graph_is_edge_stream node current_func call_graph all_functions k :
  edges_of (build_call_graph node current_func call_graph all_functions).1 k
  = edges_of (default [] call_graph) k ++ callees_in k (call_edges node current_func).
Proof. apply build_call_graph_edges. Qed.

(** X5: a tree without a declaration that has a name (outside the system
    headers) leaves the graph and the function set as they were: a call
    that is in no function, such as the initialiser of a global, is
    dropped. *)
Theorem no_named_declaration_no_record node call_graph all_functions :
  named (declared_names node) = [] →
  build_call_graph node None call_graph all_functions
  = (default [] call_graph, default ∅ all_functions).
Proof. intros H. by apply build_call_graph_unnamed. Qed.

(** The call that initialises a global is not recorded. *)
Lemma no_named_declaration_no_record_witness :
  build_call_graph MoreFixtures.globals_only None None None = ([], ∅).
Proof.
  apply (no_named_declaration_no_record MoreFixtures.globals_only None None).
  vm_compute. reflexivity.
Defined.

(** ** is_system_header, both ways *)

Lemma prefix_inv (a s : string) : String.prefix a s = true → ∃ rest, s = a +:+ rest.
Proof.
  revert s. induction a as [|c a IH]; intros s.
  - intros _. by exists s.
  - destruct s as [|c' s]; simpl; [done|].
    destruct (Ascii.ascii_dec c c') as [->|]; [|done].
    intros [rest ->]%IH. by exists rest.
Qed.

Lemma str_contains_inv (sub s : string) :
  str_contains sub s = true → ∃ before rest, s = before +:+ sub +:+ rest.
Proof.
  induction s as [|c s IH]; cbn [str_contains].
  - rewrite orb_false_r. intros [rest ->]%prefix_inv. by exists "", rest.
  - intros [[rest ->]%prefix_inv|(before & rest & ->)%IH]%orb_true_iff.
    + by exists "", rest.
    + by exists (String c before), rest.
Qed.

(** X6: a cursor is taken for system code exactly when its location has
    no file, or the file's path starts with [/usr/include] or [/usr/lib],
    or has [/lib/gcc] somewhere in it; the tests are on the text of the
    path, so [/usr/libexec/...] and [/home/me/lib/gcc-tools/...] are
    system code too. *)
Theorem is_system_header_iff cursor :
  is_system_header cursor = true ↔ system_location (location_file cursor).
Proof.
  split; [|apply system_location_header].
  unfold is_system_header, system_location.
  destruct (location_file cursor) as [name|]; [|by left].
  intros [[Hp|Hp]%orb_true_iff|Hc]%orb_true_iff; right; exists name; split; try done.
  - left. by apply prefix_inv.
  - right. left. by apply prefix_inv.
  - right. right. by apply str_contains_inv.
Qed.

(** ** The printer and the render loop *)

Section printer_more_lemmas.
Implicit Types (w : world) (g : CallGraph) (cs : callees).

Lemma str_app_assoc (a b c : string) : (a +:+ b) +:+ c = a +:+ (b +:+ c).
Proof.
  induction a as [|x a IH]; [done|].
  change (String x ((a +:+ b) +:+ c) = String x (a +:+ (b +:+ c))). by rewrite IH.
Qed.

Lemma str_app_nil_r (a : string) : a +:+ "" = a.
Proof.
  induction a as [|x a IH]; [done|].
  change (String x (a +:+ "") = String x a). by rewrite IH.
Qed.

Lemma for_callees_mono rec1 rec2 start lenght cs w w' :
  (∀ c l w1 w2, rec1 c l w1 = (Returned, w2) → rec2 c l w1 = (Returned, w2)) →
  for_callees rec1 start lenght cs w = (Returned, w') →
  for_callees rec2 start lenght cs w = (Returned, w').
Proof.
  intros Hrec. revert w. induction cs as [|callee rest IH]; intros w; simpl; [done|].
  destruct (getitem start w) as [cur w1].
  destruct (rec1 callee lenght _) as [[] w2] eqn:H1; [|done].
  rewrite (Hrec _ _ _ _ H1). apply IH.
Qed.

Lemma print_call_graph_mono depth depth' start_func lenght w w' :
  depth ≤ depth' →
  print_call_graph depth start_func lenght w = (Returned, w') →
  print_call_graph depth' start_func lenght w = (Returned, w').
Proof.
  revert depth' start_func lenght w w'.
  induction depth as [|depth IH]; intros depth' start lenght w w' Hle; [done|].
  destruct depth' as [|depth']; [lia|]. simpl.
  destruct start as [start|]; [|done].
  destruct (dict_contains (graph w) start); [|done].
  destruct (getitem start w) as [cs w1].
  apply for_callees_mono. intros c l w1' w2. apply IH. lia.
Qed.

Lemma print_prepend out s e w : print s e (prepend out w) = prepend out (print s e w).
Proof. unfold print, prepend. simpl. by rewrite str_app_assoc. Qed.

Lemma print_spaces_prepend out n w :
  print_spaces n (prepend out w) = prepend out (print_spaces n w).
Proof.
  revert w. induction n as [|n IH]; intros w; simpl; [done|].
  by rewrite print_prepend, IH.
Qed.

Lemma getitem_prepend out k w :
  getitem k (prepend out w) = ((getitem k w).1, prepend out (getitem k w).2).
Proof. unfold getitem, prepend. simpl. by destruct (dd_getitem (graph w) k). Qed.

Lemma announce_prepend out lenght cur callee w :
  announce lenght cur callee (prepend out w) = prepend out (announce lenght cur callee w).
Proof.
  unfold announce. destruct (bool_decide _), callee;
    by rewrite ?print_prepend, ?print_spaces_prepend, ?print_prepend.
Qed.

Lemma for_callees_prepend out rec start lenght cs w :
  (∀ c l w1, rec c l (prepend out w1) = ((rec c l w1).1, prepend out (rec c l w1).2)) →
  for_callees rec start lenght cs (prepend out w)
  = ((for_callees rec start lenght cs w).1,
     prepend out (for_callees rec start lenght cs w).2).
Proof.
  intros Hrec. revert w. induction cs as [|callee rest IH]; intros w; simpl; [done|].
  rewrite getitem_prepend. destruct (getitem start w) as [cur w1]. simpl.
  fold (announce lenght cur callee (prepend out w1)).
  fold (announce lenght cur callee w1).
  rewrite announce_prepend, Hrec.
  destruct (rec callee lenght _) as [[] w2]; simpl; [apply IH|done].
Qed.

Lemma print_call_graph_prepend out depth start_func lenght w :
  print_call_graph depth start_func lenght (prepend out w)
  = ((print_call_graph depth start_func lenght w).1,
     prepend out (print_call_graph depth start_func lenght w).2).
Proof.
  revert start_func lenght w.
  induction depth as [|depth IH]; intros start lenght w; [done|]. simpl.
  destruct start as [start|]; [|done].
  change (graph (prepend out w)) with (graph w).
  destruct (dict_contains (graph w) start); [|done].
  rewrite getitem_prepend. destruct (getitem start w) as [cs w1]. simpl.
  apply for_callees_prepend. intros c l w'. apply IH.
Qed.

Lemma reaches_never_returns g C f : recurrent g C → reaches g C f → never_returns g f.
Proof.
  intros Hrec Hreach. induction Hreach as [f HC|f cs c Hcs Hc _ IH].
  - by apply (recurrent_never_returns g C).
  - intros [|depth] lenght out; [done|].
    rewrite (print_call_graph_unfold _ _ _ (mkWorld g out) cs Hcs).
    apply for_callees_error with c;
      [apply print_call_graph_graph| |simpl; eauto|done].
    intros l [g' out'] Hg. simpl in Hg. subst g'. apply IH.
Qed.

Lemma find_root_functions_keys g f : f ∈ find_root_functions g → f ∈ dict_keys g.
Proof. by intros [? _]%elem_of_find_root_functions. Qed.

Lemma all_called_no_root g : all_called g → find_root_functions g = [].
Proof.
  intros Hall. destruct (find_root_functions g) as [|f l] eqn:Hroots; [done|].
  assert (f ∈ find_root_functions g) as Hf by (rewrite Hroots; apply list_elem_of_here).
  apply elem_of_find_root_functions in Hf as [Hkey Hnot].
  destruct (Hall f Hkey) as (caller & cs & Hcs%dict_get_elem_of & Hin).
  exfalso. apply (Hnot cs); [|done]. unfold dict_values.
  apply list_elem_of_fmap. by exists (caller, cs).
Qed.

Lemma render_roots_graph depth roots w : graph (render_roots depth roots w).2 = graph w.
Proof.
  revert w. induction roots as [|f roots IH]; intros w; simpl; [done|].
  pose proof (print_call_graph_graph depth (Some f) 0
                (print (newline +:+ f +:+ "()") "" w)) as Hg.
  destruct (print_call_graph depth (Some f) 0 _) as [[] w']; simpl in *; [|done].
  by rewrite IH.
Qed.


Lemma render_roots_returns g depth roots w :
  (∀ f l w', f ∈ roots → graph w' = g →
             (print_call_graph depth (Some f) l w').1 = Returned) →
  graph w = g →
  (render_roots depth roots w).1 = Returned.
Proof.
  revert w. induction roots as [|r roots IH]; intros w Hret Hw; simpl; [done|].
  pose proof (print_call_graph_graph depth (Some r) 0
                (print (newline +:+ r +:+ "()") "" w)) as Hg.
  pose proof (Hret r 0 (print (newline +:+ r +:+ "()") "" w)
                (list_elem_of_here _ _) Hw) as Hr.
  destruct (print_call_graph depth (Some r) 0 _) as [[] w']; simpl in *; [|done].
  apply IH; [|by rewrite Hg].
  intros f l w'' Hf. apply Hret. by right.
Qed.

End printer_more_lemmas.

Lemma chain_ranked : ranked Fixtures.chain Fixtures.chain_rank.
Proof.
  intros f cs c Hf Hc _. unfold Fixtures.chain in Hf. simpl in Hf.
  repeat case_decide; simplify_eq;
    repeat match goal with
           | H : _ ∈ _ :: _ |- _ => apply elem_of_cons in H as [?|H]; simplify_eq
           | H : _ ∈ [] |- _ => by apply elem_of_nil in H
           end; vm_compute; lia.
Qed.

Lemma entry_into_cycle_recurrent :
  recurrent MoreFixtures.entry_into_cycle (λ f, f = "A" ∨ f = "B").
Proof.
  intros f [-> | ->].
  - exists [Some "B"], "B". split_and!; [done|apply list_elem_of_here|by right].
  - exists [Some "A"], "A". split_and!; [done|apply list_elem_of_here|by left].
Qed.

Lemma entry_into_cycle_reaches :
  reaches MoreFixtures.entry_into_cycle (λ f, f = "A" ∨ f = "B") "main".
Proof.
  apply reaches_step with [Some "A"] "A"; [done|apply list_elem_of_here|].
  apply reaches_here. by left.
Qed.

(** X7: printing a function from which a chain of calls leads into a
    cycle never returns: it ends in [RecursionError] whatever depth the
    interpreter allows, also when the function itself is on no cycle. *)
Theorem print_call_graph_into_cycle g (C : string → Prop) f :
  recurrent g C → reaches g C f → never_returns g f.
Proof. apply reaches_never_returns. Qed.

(** [main] calls into the mutual recursion of [A] and [B]. *)
Lemma print_call_graph_into_cycle_witness :
  never_returns MoreFixtures.entry_into_cycle "main".
Proof.
  exact (print_call_graph_into_cycle MoreFixtures.entry_into_cycle _ "main"
           entry_into_cycle_recurrent entry_into_cycle_reaches).
Defined.

(** X8: once the depth allowed is enough for a call to return, any larger
    depth gives the same output and the same graph: the recursion limit
    decides only whether the printing completes, never what is printed. *)
Theorem print_call_graph_depth_irrelevant depth depth' start_func lenght w w' :
  depth ≤ depth' →
  print_call_graph depth start_func lenght w = (Returned, w') →
  print_call_graph depth' start_func lenght w = (Returned, w').
Proof. apply print_call_graph_mono. Qed.

(** Four frames or a thousand print the same chain. *)
Lemma print_call_graph_depth_irrelevant_witness :
  print_call_graph 1000 (Some "main") 0 (mkWorld Fixtures.chain "")
  = (Returned, mkWorld Fixtures.chain "-> helper()-> Widget::run()-> None").
Proof.
  apply (print_call_graph_depth_irrelevant 4 1000); [lia|]. vm_compute. reflexivity.
Defined.

(** X9: the printer only appends to the standard output, and what it
    appends and how it ends do not depend on what was printed before:
    printing after [out] gives [out] followed by what printing from an
    empty output gives. *)
Theorem print_call_graph_appends depth start_func lenght g out :
  print_call_graph depth start_func lenght (mkWorld g out)
  = ((print_call_graph depth start_func lenght (mkWorld g "")).1,
     mkWorld g
       (out +:+ stdout (print_call_graph depth start_func lenght (mkWorld g "")).2)).
Proof.
  rewrite <- (str_app_nil_r out) at 1.
  change (mkWorld g (out +:+ "")) with (prepend out (mkWorld g "")).
  rewrite print_call_graph_prepend. unfold prepend.
  by rewrite print_call_graph_graph.
Qed.

(** X10: when every key of the graph is a callee of some entry (every
    function is called, as when all of them are on cycles), there is no
    root, nothing is rendered, and the output is the line
    [No root functions found.] followed by an empty line. *)
Theorem render_without_roots depth g out :
  all_called g →
  find_root_functions g = []
  ∧ render depth (mkWorld g out)
    = (Returned, mkWorld g (out +:+ "No root functions found." +:+ newline +:+ newline)).
Proof.
  intros Hall. pose proof (all_called_no_root g Hall) as Hroots.
  split; [done|]. unfold render. simpl graph. rewrite Hroots.
  unfold print. simpl. by rewrite !str_app_assoc.
Qed.

(** The mutual recursion of [A] and [B] has no root. *)
Lemma render_without_roots_witness :
  find_root_functions Fixtures.mutual_recursion = []
  ∧ render 1000 (mkWorld Fixtures.mutual_recursion "")
    = (Returned,
       mkWorld Fixtures.mutual_recursion
         ("" +:+ "No root functions found." +:+ newline +:+ newline)).
Proof.
  apply (render_without_roots 1000 Fixtures.mutual_recursion "").
  intros f Hf. unfold Fixtures.mutual_recursion in Hf. simpl in Hf.
  apply elem_of_cons in Hf as [->|Hf].
  - exists "B", [Some "A"]. split; [done|apply list_elem_of_here].
  - apply elem_of_cons in Hf as [->|Hf]; [|by apply elem_of_nil in Hf].
    exists "A", [Some "B"]. split; [done|apply list_elem_of_here].
Defined.



(** X12: on a graph without cycle (a rank decreases along every edge to a
    function that has an entry) the render loop returns as soon as the
    depth allowed is the largest rank of a key plus two. *)
Theorem render_acyclic g rank depth out :
  ranked g rank → (∀ f, f ∈ dict_keys g → rank f + 2 ≤ depth) →
  (render depth (mkWorld g out)).1 = Returned.
Proof.
  intros Hrank Hdepth. unfold render. simpl graph.
  destruct (find_root_functions g) as [|r roots] eqn:Hroots; [done|].
  pose proof (render_roots_returns g depth (r :: roots)
                (print (newline +:+ "Call graph:") "" (mkWorld g out))) as Hr.
  destruct (render_roots depth (r :: roots) _) as [[] w']; simpl in *; [done|].
  apply Hr; [|done].
  intros f l w'' Hf Hw''. apply (ranked_returns g rank); [done|done|].
  apply Hdepth, find_root_functions_keys. by rewrite Hroots.
Qed.

(** The chain of the scenario is rendered within four frames. *)
Lemma render_acyclic_witness :
  (render 4 (mkWorld Fixtures.chain "")).1 = Returned.
Proof.
  apply (render_acyclic Fixtures.chain Fixtures.chain_rank 4 "" chain_ranked).
  intros f Hf. unfold Fixtures.chain_rank. repeat case_decide; lia.
Defined.

(** ** The loop over the source files *)

Section units_lemmas.
Implicit Types (g cg global : CallGraph) (fs : gset string) (r : run).

Lemma dict_set_same d k v : dict_get d k = Some v → dict_set d k v = d.
Proof.
  induction d as [|[k0 v0] d IH]; simpl; [done|].
  destruct (decide (k0 = k)) as [->|Hne].
  - by intros [= ->].
  - intros H. by rewrite IH.
Qed.

Lemma merge_unit_fixed cg funcs global :
  (∀ k, k ∈ funcs → dict_get global k = Some (edges_of cg k)) →
  merge_unit cg funcs global = global.
Proof.
  revert cg. induction funcs as [|a l IH]; intros cg Hfixed; [done|].
  rewrite merge_unit_cons, dict_set_same by (apply Hfixed, list_elem_of_here).
  apply IH. intros k Hk. rewrite dd_getitem_edges. apply Hfixed. by right.
Qed.

Lemma merge_unit_idemp cg funcs global :
  merge_unit cg funcs (merge_unit cg funcs global) = merge_unit cg funcs global.
Proof.
  apply merge_unit_fixed. intros k Hk. by rewrite merge_unit_get, decide_True.
Qed.

Lemma process_unit_functions r u :
  all_functions (process_unit r u) = all_functions r ∪ unit_functions u.
Proof.
  unfold process_unit, unit_functions. destruct (parse u) as [cursor|e]; simpl.
  - by destruct (build_call_graph cursor None None None).
  - set_solver.
Qed.

Lemma elem_of_process_units_functions l r f :
  f ∈ all_functions (process_units l r)
  ↔ f ∈ all_functions r ∨ ∃ u, u ∈ l ∧ f ∈ unit_functions u.
Proof.
  unfold process_units. revert r. induction l as [|u l IH]; intros r; cbn [foldl].
  - split; [by left|]. intros [?|(u & Hu%elem_of_nil & _)]; done.
  - rewrite IH, process_unit_functions, elem_of_union. split.
    + intros [[?|?]|(u' & ? & ?)]; [by left| |].
      * right. exists u. split; [apply list_elem_of_here|done].
      * right. exists u'. split; [by right|done].
    + intros [?|(u' & [->|?]%elem_of_cons & ?)]; [by left; left|by left; right|].
      right. by exists u'.
Qed.

Lemma process_unit_adds_nothing r u :
  adds_no_function u →
  global_call_graph (process_unit r u) = global_call_graph r
  ∧ all_functions (process_unit r u) = all_functions r.
Proof.
  unfold adds_no_function, process_unit. destruct (parse u) as [cursor|e]; [|done].
  intros Hnames. rewrite (build_call_graph_unnamed cursor None None None eq_refl Hnames).
  simpl. rewrite elements_empty. split; [done|set_solver].
Qed.

Lemma process_units_add_nothing l r :
  Forall adds_no_function l →
  global_call_graph (process_units l r) = global_call_graph r
  ∧ all_functions (process_units l r) = all_functions r.
Proof.
  unfold process_units. intros Hl. revert r.
  induction Hl as [|u l Hu _ IH]; intros r; cbn [foldl]; [done|].
  destruct (IH (process_unit r u)) as [-> ->]. by apply process_unit_adds_nothing.
Qed.

Lemma normalize_entry_keys g func :
  is_Some (dict_get g func) → dict_keys (normalize_entry g func) = dict_keys g.
Proof.
  intros [v Hv]. unfold normalize_entry. rewrite (dd_getitem_present _ _ _ Hv).
  destruct (bool_decide _); [|done].
  rewrite dd_append_dict_set. apply dict_keys_set_present. eauto.
Qed.

Lemma normalize_keys all_funcs g :
  (∀ f, f ∈ all_funcs → f ∈ dict_keys g) →
  dict_keys (normalize all_funcs g) = dict_keys g.
Proof.
  unfold normalize. revert g. induction all_funcs as [|a l IH]; intros g Hkeys; [done|].
  cbn [foldl].
  assert (dict_keys (normalize_entry g a) = dict_keys g) as Ha.
  { apply normalize_entry_keys, dict_get_is_Some, Hkeys, list_elem_of_here. }
  rewrite IH, Ha; [done|]. intros f Hf. rewrite Ha. apply Hkeys. by right.
Qed.

End units_lemmas.

(** X13: when no unit adds a function (each one fails to parse or has no
    named declaration outside the system headers, and also when there is no
    source file at all), the global graph and the function set stay empty
    and the run ends, returning, on the line [No functions found in the
    file.]: nothing is normalised and nothing is rendered. *)
Theorem main_without_functions depth source_files :
  Forall adds_no_function source_files →
  global_call_graph (process_units source_files (mkRun [] ∅ "")) = []
  ∧ all_functions (process_units source_files (mkRun [] ∅ "")) = ∅
  ∧ main depth source_files
    = (Returned,
       echo "No functions found in the file." newline
         (process_units source_files (mkRun [] ∅ ""))).
Proof.
  intros Hl.
  destruct (process_units_add_nothing source_files (mkRun [] ∅ "") Hl) as [Hg Hf].
  split_and!; [done|done|]. unfold main. by rewrite Hf.
Qed.

(** A unit that does not parse and one with globals only. *)
Lemma main_without_functions_witness :
  main 1000 [Fixtures.broken_unit; mkUnit "globals.cpp" "[]" (inl MoreFixtures.globals_only)]
  = (Returned,
     echo "No functions found in the file." newline
       (process_units
          [Fixtures.broken_unit; mkUnit "globals.cpp" "[]" (inl MoreFixtures.globals_only)]
          (mkRun [] ∅ ""))).
Proof.
  refine (proj2 (proj2 (main_without_functions 1000 _ _))).
  apply Forall_cons_2; [exact I|].
  apply Forall_cons_2; [vm_compute; reflexivity|apply Forall_nil_2].
Defined.

(** X14: before root detection the global graph has one entry for every
    function of the set and none for any other name (a name that is only
    called never becomes a key), and normalisation adds no key and moves
    none. *)
Theorem global_graph_keys (source_files : list unit_input) :
  let r := process_units source_files (mkRun [] ∅ "") in
  let G := normalize (sorted (all_functions r)) (global_call_graph r) in
  NoDup (dict_keys G)
  ∧ (∀ k, k ∈ dict_keys G ↔ k ∈ all_functions r)
  ∧ dict_keys G = dict_keys (global_call_graph r).
Proof.
  intros r G.
  destruct (process_units_keys source_files _ (keys_are_functions_init "")) as [Hnd Hkeys].
  fold r in Hnd, Hkeys.
  assert (dict_keys G = dict_keys (global_call_graph r)) as HG.
  { apply normalize_keys. intros f Hf. by apply Hkeys, elem_of_sorted. }
  rewrite HG. done.
Qed.

(** X15: processing a unit a second time right after the first changes
    neither the global graph nor the function set: the entries of its
    functions are overwritten by the same edge lists, not appended to. *)
Theorem reprocessing_unit_changes_nothing r u :
  global_call_graph (process_unit (process_unit r u) u)
  = global_call_graph (process_unit r u)
  ∧ all_functions (process_unit (process_unit r u) u)
    = all_functions (process_unit r u).
Proof.
  split; [|rewrite !process_unit_functions; set_solver].
  unfold process_unit. destruct (parse u) as [cursor|e]; [|done].
  destruct (build_call_graph cursor None None None) as [cg funcs]. simpl.
  apply merge_unit_idemp.
Qed.

(** X16: the function set at the end of the loop does not depend on the
    order of the source files (the graph does, by the overwriting merge). *)
Theorem function_set_order_independent l l' r :
  l ≡ₚ l' →
  all_functions (process_units l r) = all_functions (process_units l' r).
Proof.
  intros Hperm. apply set_eq. intros f.
  rewrite !elem_of_process_units_functions.
  split; intros [?|(u & Hu & ?)]; [by left| |by left|]; right; exists u.
  - by rewrite <- Hperm.
  - by rewrite Hperm.
Qed.

(** The two files that define [f], in either order. *)
Lemma function_set_order_independent_witness :
  all_functions
    (process_units [Fixtures.unit_f "a.cpp" "x"; Fixtures.unit_f "b.cpp" "y"] (mkRun [] ∅ ""))
  = all_functions
      (process_units [Fixtures.unit_f "b.cpp" "y"; Fixtures.unit_f "a.cpp" "x"] (mkRun [] ∅ "")).
Proof.
  apply (function_set_order_independent
           [Fixtures.unit_f "a.cpp" "x"; Fixtures.unit_f "b.cpp" "y"]
           [Fixtures.unit_f "b.cpp" "y"; Fixtures.unit_f "a.cpp" "x"]).
  apply Permutation_swap.
Defined.

(** ** find_source_files *)

Section source_files_lemmas.
Implicit Types (s suffix a b : string) (extensions : list string).

Lemma endswith_app a b suffix :
  endswith b suffix = true → endswith (a +:+ b) suffix = true.
Proof.
  intros Hb. induction a as [|c a IH]; [done|].
  change (String c a +:+ b) with (String c (a +:+ b)). cbn [endswith].
  by destruct (String.eqb _ _).
Qed.

Lemma path_join_suffix a b : ∃ x, path_join a b = x +:+ b.
Proof.
  unfold path_join. destruct (String.prefix "/" b); [by exists ""|].
  destruct (_ || _); [by exists a|].
  exists (a +:+ "/"). by rewrite str_app_assoc.
Qed.

Lemma endswith_any_join dirpath file extensions :
  endswith_any file extensions = true →
  endswith_any (path_join dirpath file) extensions = true.
Proof.
  unfold endswith_any. rewrite !existsb_exists.
  intros (suffix & Hin & Hends). exists suffix. split; [done|].
  destruct (path_join_suffix dirpath file) as [x ->]. by apply endswith_app.
Qed.

Lemma elem_of_collect_files extensions dirpath filenames sources path :
  path ∈ foldl (λ sources file,
                  if endswith_any file extensions
                  then sources ++ [path_join dirpath file]
                  else sources)
               sources filenames
  ↔ path ∈ sources
    ∨ ∃ file, file ∈ filenames ∧ endswith_any file extensions = true
              ∧ path = path_join dirpath file.
Proof.
  revert sources. induction filenames as [|file l IH]; intros sources; cbn [foldl].
  - split; [by left|]. intros [?|(file & ?%elem_of_nil & _)]; done.
  - rewrite IH. destruct (endswith_any file extensions) eqn:Hfile.
    + rewrite elem_of_app, list_elem_of_singleton. split.
      * intros [[? | ->]|(file' & ? & ? & ?)]; [by left| |].
        -- right. exists file. split_and!; [apply list_elem_of_here|done|done].
        -- right. exists file'. split_and!; [by right|done|done].
      * intros [?|(file' & [->|?]%elem_of_cons & ? & ?)];
          [by left; left|by left; right|].
        right. by exists file'.
    + split.
      * intros [?|(file' & ? & ? & ?)]; [by left|].
        right. exists file'. split_and!; [by right|done|done].
      * intros [?|(file' & [->|?]%elem_of_cons & Hends & ?)]; [by left|congruence|].
        right. by exists file'.
Qed.

Lemma elem_of_find_source_files_from
    (walk : list (string * list string * list string)) extensions
    (sources : list string) path :
  path ∈ foldl (λ sources '(dirpath, _, filenames),
                  foldl (λ sources file,
                           if endswith_any file extensions
                           then sources ++ [path_join dirpath file]
                           else sources)
                        sources filenames)
               sources walk
  ↔ path ∈ sources
    ∨ ∃ dirpath dirnames filenames file,
        (dirpath, dirnames, filenames) ∈ walk ∧ file ∈ filenames
        ∧ endswith_any file extensions = true ∧ path = path_join dirpath file.
Proof.
  revert sources. induction walk as [|[[dirpath dirnames] filenames] l IH];
    intros sources; cbn [foldl].
  - split; [by left|]. intros [?|(? & ? & ? & ? & ?%elem_of_nil & _)]; done.
  - rewrite IH, elem_of_collect_files. split.
    + intros [[?|(file & ? & ? & ?)]|(d & ds & fns & file & ? & ? & ? & ?)]; [by left| |].
      * right. exists dirpath, dirnames, filenames, file.
        split_and!; [apply list_elem_of_here|done..].
      * right. exists d, ds, fns, file. split_and!; [by right|done..].
    + intros [?|(d & ds & fns & file & [[= -> -> ->]|?]%elem_of_cons & ? & ? & ?)];
        [by left; left| |].
      * left. right. by exists file.
      * right. by exists d, ds, fns, file.
Qed.

End source_files_lemmas.

Lemma elem_of_find_source_files walk extensions path :
  path ∈ find_source_files walk extensions
  ↔ ∃ dirpath dirnames filenames file,
      (dirpath, dirnames, filenames) ∈ walk ∧ file ∈ filenames
      ∧ endswith_any file extensions = true ∧ path = path_join dirpath file.
Proof.
  unfold find_source_files. rewrite elem_of_find_source_files_from.
  split; [|by right]. intros [?%elem_of_nil|?]; done.
Qed.

Lemma find_source_files_endswith walk extensions path :
  path ∈ find_source_files walk extensions → endswith_any path extensions = true.
Proof.
  intros (dirpath & _ & _ & file & _ & _ & Hends & ->)%elem_of_find_source_files.
  by apply endswith_any_join.
Qed.

(** X17: [find_source_files] returns exactly the paths [dirpath/file] for
    the files of the walked directories whose name ends with one of the
    extensions, and every path it returns ends with one of the extensions
    itself: a file such as [widget.o] or [notes.c.txt] is never returned. *)
Theorem find_source_files_sound_complete walk extensions :
  (∀ path,
     path ∈ find_source_files walk extensions
     ↔ ∃ dirpath dirnames filenames file,
         (dirpath, dirnames, filenames) ∈ walk ∧ file ∈ filenames
         ∧ endswith_any file extensions = true ∧ path = path_join dirpath file)
  ∧ (∀ path, path ∈ find_source_files walk extensions →
             endswith_any path extensions = true).
Proof.
  split; [apply elem_of_find_source_files|apply find_source_files_endswith].
Qed.

Lemma leaf_marked_names (f : string) (cs : callees) :
  Some f ∈ leaf_marked cs ↔ Some f ∈ cs.
Proof.
  destruct cs as [|c cs]; [|done]. simpl. split.
  - intros [?|?%elem_of_nil]%elem_of_cons; done.
  - by intros ?%elem_of_nil.
Qed.

(** X18: normalisation does not change which functions are roots, nor
    their order: the roots of the merged graph with the leaf markers put in
    are the roots of the merged graph without them. *)
Theorem normalization_keeps_roots (source_files : list unit_input) :
  let r := process_units source_files (mkRun [] ∅ "") in
  find_root_functions (normalize (sorted (all_functions r)) (global_call_graph r))
  = find_root_functions (global_call_graph r).
Proof.
  intros r.
  destruct (process_units_keys source_files _ (keys_are_functions_init "")) as [Hnd Hkeys].
  fold r in Hnd, Hkeys.
  set (G := normalize (sorted (all_functions r)) (global_call_graph r)).
  assert (dict_keys G = dict_keys (global_call_graph r)) as HG.
  { apply normalize_keys. intros f Hf. by apply Hkeys, elem_of_sorted. }
  assert (NoDup (dict_keys G)) as HndG by (by rewrite HG).
  unfold find_root_functions. rewrite HG. apply list_filter_iff. intros f.
  rewrite !elem_of_all_called.
  assert ((∃ cs, cs ∈ dict_values G ∧ Some f ∈ cs)
          ↔ (∃ cs, cs ∈ dict_values (global_call_graph r) ∧ Some f ∈ cs)) as Hiff.
  { split.
    - intros (cs & [k Hk]%elem_of_dict_values & Hf); [|done].
      unfold G in Hk. rewrite normalize_get in Hk.
      destruct (decide (k ∈ sorted (all_functions r))).
      + injection Hk as <-. apply (proj1 (leaf_marked_names _ _)) in Hf.
        unfold edges_of in Hf.
        destruct (dict_get (global_call_graph r) k) as [v|] eqn:Hv;
          [|by apply elem_of_nil in Hf].
        exists v. split; [|done]. apply elem_of_dict_values; eauto.
      + exists cs. split; [|done]. apply elem_of_dict_values; eauto.
    - intros (cs & [k Hk]%elem_of_dict_values & Hf); [|done].
      destruct (decide (k ∈ sorted (all_functions r))) as [Hin|Hnin].
      + exists (leaf_marked cs). split; [|by apply leaf_marked_names].
        apply elem_of_dict_values; [done|]. exists k. unfold G.
        rewrite normalize_get, decide_True by done. unfold edges_of. by rewrite Hk.
      + exists cs. split; [|done].
        apply elem_of_dict_values; [done|]. exists k. unfold G.
        by rewrite normalize_get, decide_False. }
  split; intros Hnot [?|H]; apply Hnot; [by left|right; by apply Hiff|by left|
                                          right; by apply Hiff].
Qed.

(** ** generate_compile_command and extract_compile_commands_from_make *)

Section compile_commands_lemmas.
Variable abspath : string → string.
Variable dirname : string → string.
Variable getcwd : string.
Variable shlex_split : string → option (list string).

Lemma endswith_refl (s : string) : endswith s s = true.
Proof. destruct s; cbn [endswith]; by rewrite String.eqb_refl. Qed.

Lemma str_join_cons sep word rest :
  rest ≠ [] → str_join sep (word :: rest) = word +:+ sep +:+ str_join sep rest.
Proof. by destruct rest. Qed.

Lemma str_join_snoc sep words word :
  words ≠ [] → str_join sep (words ++ [word]) = str_join sep words +:+ sep +:+ word.
Proof.
  induction words as [|w l IH]; [done|]. intros _.
  destruct l as [|w' l]; [done|].
  change ((w :: w' :: l) ++ [word]) with (w :: ((w' :: l) ++ [word])).
  rewrite !str_join_cons by done. rewrite IH by done.
  by rewrite !str_app_assoc.
Qed.

Lemma generate_compile_command_shape project_root source_file include_dirs
    compiler extra_flags :
  let e := generate_compile_command abspath dirname project_root source_file
             include_dirs compiler extra_flags in
  file e = source_file
  ∧ directory e = dirname (abspath source_file)
  ∧ String.prefix (compiler +:+ " ") (command e) = true
  ∧ endswith (command e) (" " +:+ project_root +:+ " " +:+ source_file) = true.
Proof.
  unfold generate_compile_command. simpl.
  set (flags := foldl _ (compiler :: extra_flags) include_dirs).
  assert (∃ rest, flags = compiler :: rest) as [rest Hflags].
  { unfold flags. generalize extra_flags.
    induction include_dirs as [|inc l IH]; intros fl; simpl; [by eexists|].
    apply (IH (fl ++ ["-I" +:+ inc])). }
  split_and!; [done|done|..].
  - rewrite Hflags. change ((compiler :: rest) ++ [project_root])
      with (compiler :: (rest ++ [project_root])).
    change ((compiler :: rest ++ [project_root]) ++ [source_file])
      with (compiler :: ((rest ++ [project_root]) ++ [source_file])).
    rewrite str_join_cons by (by destruct rest).
    rewrite <- str_app_assoc. apply prefix_app.
  - rewrite !str_join_snoc by (rewrite ?Hflags; by destruct rest).
    rewrite !str_app_assoc. apply endswith_app, endswith_refl.
Qed.

Lemma scan_make_output_spec project_root cwd lines acc result :
  scan_make_output abspath getcwd shlex_split project_root cwd lines acc = inl result →
  ∃ new,
    result = acc ++ new
    ∧ command <$> new = filter (λ line, names_source shlex_split line = true) lines
    ∧ Forall (entry_of_line abspath getcwd shlex_split project_root cwd) new.
Proof.
  revert acc. induction lines as [|line rest IH]; intros acc; cbn [scan_make_output].
  - intros [= <-]. exists []. by rewrite app_nil_r.
  - destruct (startswith_any line compiler_names) eqn:Hstart.
    + destruct (shlex_split line) as [args|] eqn:Hsplit; [|done].
      destruct (filter _ args) as [|src others] eqn:Hsrc.
      * assert (names_source shlex_split line = false) as Hns.
        { unfold names_source. rewrite Hstart, Hsplit, Hsrc. simpl.
          first [done | by apply bool_decide_eq_false_2]. }
        rewrite filter_cons, decide_False by (by rewrite Hns). apply IH.
      * assert (names_source shlex_split line = true) as Hns.
        { unfold names_source. rewrite Hstart, Hsplit, Hsrc. simpl.
          first [done | by apply bool_decide_eq_true_2]. }
        rewrite filter_cons, decide_True by done.
        intros (new & -> & Hcmds & Hnew)%IH.
        eexists (_ :: new). rewrite <- app_assoc. split_and!; [done| |].
        -- csimpl. by rewrite Hcmds.
        -- constructor; [|done]. split; [done|]. by exists args, src, others.
    + assert (names_source shlex_split line = false) as Hns.
      { unfold names_source. by rewrite Hstart. }
      rewrite filter_cons, decide_False by (by rewrite Hns). apply IH.
Qed.

Lemma scan_make_output_raises project_root cwd lines acc line :
  line ∈ lines → startswith_any line compiler_names = true →
  shlex_split line = None →
  ∃ l, scan_make_output abspath getcwd shlex_split project_root cwd lines acc = inr l.
Proof.
  intros Hin Hstart Hsplit. revert acc.
  induction lines as [|line' rest IH]; intros acc; [by apply elem_of_nil in Hin|].
  cbn [scan_make_output].
  destruct (decide (line' = line)) as [->|Hne].
  - rewrite Hstart, Hsplit. by eexists.
  - apply elem_of_cons in Hin as [->|Hin]; [done|].
    destruct (startswith_any line' compiler_names); [|by apply IH].
    destruct (shlex_split line') as [args|]; [|by eexists].
    destruct (filter _ args); by apply IH.
Qed.

End compile_commands_lemmas.

(** X19: without [make], one entry is written for every source file that
    [find_source_files] returns, in the same order; the file of an entry
    ends with a source extension, and its command starts with the compiler
    and ends with the project root followed by that file. *)
Theorem extract_without_make abspath dirname getcwd shlex_split make walk
    project_root output_path include_dirs compiler extra_flags cwd :
  ∃ compile_commands printed,
    extract_compile_commands_from_make abspath dirname getcwd shlex_split make walk
      project_root output_path include_dirs compiler extra_flags false cwd
    = Written compile_commands printed
    ∧ file <$> compile_commands = find_source_files walk source_extensions
    ∧ Forall (λ e, endswith_any (file e) source_extensions = true
                   ∧ String.prefix (compiler +:+ " ") (command e) = true
                   ∧ endswith (command e) (" " +:+ project_root +:+ " " +:+ file e) = true)
             compile_commands.
Proof.
  unfold extract_compile_commands_from_make. eexists _, _. split; [done|]. split.
  - rewrite <- list_fmap_compose. rewrite <- (list_fmap_id (find_source_files _ _)) at 2.
    by apply list_fmap_ext.
  - apply Forall_fmap, Forall_forall. intros src Hsrc. simpl.
    destruct (generate_compile_command_shape abspath dirname project_root src
                include_dirs compiler extra_flags) as (_ & _ & Hp & He).
    split_and!; [by apply find_source_files_endswith in Hsrc|done|done].
Qed.

(** X20: with [make], when the list is written it has one entry for every
    line of the dry run that starts with the name of a compiler and names a
    source file, in the order of the lines and with the line as its
    command; every other line leaves no entry. The directory of an entry is
    the project root under the working directory, its file the first word
    of the line that ends with a source extension, made absolute. *)
Theorem extract_with_make abspath dirname getcwd shlex_split lines walk
    project_root output_path include_dirs compiler extra_flags cwd
    compile_commands printed :
  extract_compile_commands_from_make abspath dirname getcwd shlex_split (inl lines) walk
    project_root output_path include_dirs compiler extra_flags true cwd
  = Written compile_commands printed →
  command <$> compile_commands
  = filter (λ line, names_source shlex_split line = true) lines
  ∧ Forall (entry_of_line abspath getcwd shlex_split project_root cwd) compile_commands.
Proof.
  unfold extract_compile_commands_from_make.
  destruct (scan_make_output _ _ _ _ _ _ _) as [result|line] eqn:Hscan; [|done].
  intros [= <- _].
  by apply scan_make_output_spec in Hscan as (new & -> & ? & ?).
Qed.

(** The dry run of a small project: two of its five lines name a source. *)
Lemma extract_with_make_witness :
  command <$>
    [ mkCommand "/home/dev/proj" "gcc -Wall -c src/main.c -o main.o"
        "./proj/src/main.c";
      mkCommand "/home/dev/proj" "clang++ -c widget.cpp" "./proj/widget.cpp" ]
  = filter (λ line, names_source MoreFixtures.split_on_blanks line = true)
           MoreFixtures.dry_run.
Proof.
  refine (proj1 (extract_with_make (λ p, p) (λ p, p) "/home/dev"
                   MoreFixtures.split_on_blanks MoreFixtures.dry_run []
                   "proj" "proj/compile_commands.json" [] "clang++" [] None
                   _ ("Generated proj/compile_commands.json with 2 entries." +:+ newline)
                   _)).
  vm_compute. reflexivity.
Defined.

(** X21: with [make], one line that starts with the name of a compiler
    and that [shlex.split] cannot split makes the extraction raise: nothing
    is written, whatever the other lines are. *)
Theorem extract_unsplittable_line abspath dirname getcwd shlex_split lines walk
    project_root output_path include_dirs compiler extra_flags cwd line :
  line ∈ lines → startswith_any line compiler_names = true →
  shlex_split line = None →
  ∃ l, extract_compile_commands_from_make abspath dirname getcwd shlex_split
         (inl lines) walk project_root output_path include_dirs compiler
         extra_flags true cwd
       = SplitRaised l.
Proof.
  intros Hin Hstart Hsplit. unfold extract_compile_commands_from_make.
  destruct (scan_make_output_raises abspath getcwd shlex_split project_root cwd
              lines [] line Hin Hstart Hsplit) as [l ->].
  by exists l.
Qed.

(** A splitter that gives up on a line with a quote. *)
Lemma extract_unsplittable_line_witness :
  ∃ l, extract_compile_commands_from_make (λ p, p) (λ p, p) "/home/dev"
         (λ line, if str_contains "'" line then None
                  else MoreFixtures.split_on_blanks line)
         (inl ["gcc -c a.c"; "gcc -DNAME='x -c b.c"]) []
         "proj" "proj/compile_commands.json" [] "clang++" [] true None
       = SplitRaised l.
Proof.
  apply (extract_unsplittable_line _ _ _ _ _ _ _ _ _ _ _ _ "gcc -DNAME='x -c b.c").
  - apply list_elem_of_further, list_elem_of_here.
  - vm_compute. reflexivity.
  - vm_compute. reflexivity.
Defined.

(** ** The dispatch on the node's kind *)

Section dispatch_lemmas.
Implicit Types (cg : CallGraph) (fs : gset string) (ctx : option string).

Lemma build_call_graph_exclusive_unfold node ctx call_graph all_functions :
  build_call_graph_exclusive node ctx call_graph all_functions =
    for_children build_call_graph_exclusive (spec_dispatch node ctx) (get_children node)
      (default [] call_graph)
      (spec_register node (spec_dispatch node ctx) (default ∅ all_functions)).
Proof. by destruct node. Qed.

(** The test of line 111 is always true, and the nested tests of lines
    112-117 are the exclusive branch. *)
Lemma enclosing_function_spec node ctx :
  enclosing_function node ctx = spec_dispatch node ctx.
Proof. unfold enclosing_function, spec_dispatch. by destruct (kind node). Qed.

Lemma qualified_name_nonempty (p s : string) : p +:+ "::" +:+ s ≠ "".
Proof. by destruct p. Qed.

Lemma enclosing_function_nonempty node ctx f :
  Forall (λ g, g ≠ "") (own_name node) → (∀ g, ctx = Some g → g ≠ "") →
  enclosing_function node ctx = Some f → f ≠ "".
Proof.
  intros Hown Hctx. rewrite enclosing_function_spec.
  unfold spec_dispatch, own_name in *.
  destruct (kind node); simpl in *;
    try (by apply Hctx);
    intros [= <-]; rewrite Forall_singleton in Hown; exact Hown.
Qed.

Lemma register_spec node ctx fs :
  Forall (λ g, g ≠ "") (own_name node) →
  (∀ g, ctx = Some g → g ≠ "" ∧ g ∈ fs) →
  register node (enclosing_function node ctx) fs
  = spec_register node (spec_dispatch node ctx) fs.
Proof.
  intros Hown Hctx. rewrite enclosing_function_spec.
  unfold register, spec_register, spec_dispatch, own_name, kind_truth, truthy in *.
  rewrite orb_true_r.
  destruct (kind node); simpl in *.
  - rewrite Forall_singleton in Hown. by rewrite (bool_decide_eq_true_2 _ Hown).
  - rewrite Forall_singleton in Hown. by rewrite (bool_decide_eq_true_2 _ Hown).
  - destruct ctx as [g|]; [|done]. destruct (Hctx g eq_refl) as [Hg Hin].
    rewrite (bool_decide_eq_true_2 _ Hg). set_solver.
  - destruct ctx as [g|]; [|done]. destruct (Hctx g eq_refl) as [Hg Hin].
    rewrite (bool_decide_eq_true_2 _ Hg). set_solver.
  - destruct ctx as [g|]; [|done]. destruct (Hctx g eq_refl) as [Hg Hin].
    rewrite (bool_decide_eq_true_2 _ Hg). set_solver.
Qed.

Lemma build_call_graph_is_exclusive node :
  ∀ ctx call_graph all_functions,
    Forall (λ g, g ≠ "") (declared_names node) →
    (∀ g, ctx = Some g → g ≠ "" ∧ g ∈ default ∅ all_functions) →
    build_call_graph node ctx call_graph all_functions
    = build_call_graph_exclusive node ctx call_graph all_functions.
Proof.
  induction node as [kd s p t f ch IH] using Cursor_ind.
  intros ctx call_graph all_functions Hnames Hctx.
  rewrite declared_names_unfold in Hnames.
  apply Forall_app in Hnames as [Hown Hch].
  rewrite build_call_graph_unfold, build_call_graph_exclusive_unfold.
  rewrite <- (register_spec _ ctx _ Hown Hctx), <- enclosing_function_spec.
  assert (∀ g, enclosing_function (mkCursor kd s p t f ch) ctx = Some g →
               g ≠ "" ∧ g ∈ register (mkCursor kd s p t f ch)
                              (enclosing_function (mkCursor kd s p t f ch) ctx)
                              (default ∅ all_functions))
    as Hinv.
  { intros g Hg.
    assert (g ≠ "") as Hne.
    { apply (enclosing_function_nonempty _ ctx g Hown); [|done].
      intros g' Hg'. by destruct (Hctx g' Hg'). }
    split; [done|]. rewrite Hg. by apply register_elem_of. }
  revert Hinv.
  generalize (register (mkCursor kd s p t f ch)
                (enclosing_function (mkCursor kd s p t f ch) ctx)
                (default ∅ all_functions)).
  generalize (default [] call_graph).
  generalize (enclosing_function (mkCursor kd s p t f ch) ctx).
  intros ctx'. simpl in Hch. clear call_graph all_functions Hctx Hown.
  simpl get_children.
  induction IH as [|c ch Hc _ IHch]; intros cg fs Hinv; simpl; [done|].
  simpl in Hch. destruct (is_system_header c); [by apply IHch|].
  apply Forall_app in Hch as [Hcnames Hch].
  pose proof (Hc ctx' (Some (visit_call ctx' c cg)) (Some fs) Hcnames Hinv) as Heq.
  pose proof (build_call_graph_functions_mono c ctx'
                (Some (visit_call ctx' c cg)) (Some fs)) as Hmono.
  destruct (build_call_graph c ctx' _ _) as [cg' fs']. simpl in Hmono.
  rewrite <- Heq.
  apply IHch; [done|]. intros g Hg. destruct (Hinv g Hg). split; [done|]. by apply Hmono.
Qed.

End dispatch_lemmas.

(** C6: on a tree whose function declarations have a name, walked from a
    context that is absent or a registered function (as at every node of a
    walk the main block starts), the context after a node is the exclusive
    dispatch on its kind: [EnclosingType::MethodName] for a method
    declaration, the bare name for a function declaration, the context it
    was given for any other kind; the context string after the node is in
    the function set the builder returns; and the builder returns what the
    walk with the exclusive dispatch and the registration at declaration
    nodes returns: the test of line 111, which is always true, collapses
    nothing. *)
Theorem context_dispatch_exclusive node current_func call_graph all_functions :
  Forall (λ f, f ≠ "") (declared_names node) →
  (∀ f, current_func = Some f → f ≠ "" ∧ f ∈ default ∅ all_functions) →
  enclosing_function node current_func = spec_dispatch node current_func
  ∧ (∀ f, enclosing_function node current_func = Some f →
          f ∈ (build_call_graph node current_func call_graph all_functions).2)
  ∧ build_call_graph node current_func call_graph all_functions
    = build_call_graph_exclusive node current_func call_graph all_functions.
Proof.
  intros Hnames Hctx. split_and!.
  - apply enclosing_function_spec.
  - intros f Hf. apply enclosing_function_registered; [done|].
    rewrite declared_names_unfold in Hnames. apply Forall_app in Hnames as [Hown _].
    apply (enclosing_function_nonempty node current_func f Hown); [|done].
    intros g Hg. by destruct (Hctx g Hg).
  - by apply build_call_graph_is_exclusive.
Qed.

(** The scenario, walked as the main block walks it. *)
Lemma context_dispatch_exclusive_witness :
  (∀ f, enclosing_function Fixtures.scenario_tu None = Some f →
        f ∈ (build_call_graph Fixtures.scenario_tu None None None).2)
  ∧ build_call_graph Fixtures.scenario_tu None None None
    = build_call_graph_exclusive Fixtures.scenario_tu None None None.
Proof.
  refine (proj2 (context_dispatch_exclusive Fixtures.scenario_tu None None None _ _)).
  - vm_compute. repeat constructor; discriminate.
  - intros f Hf. discriminate Hf.
Defined.
